(** * opencode-antigravity-auth: the account storage
      (src/hooks/auto-update-checker/constants.ts: de-duplication, migration
      and loading), the schema sanitizer, the thinking blocks at the end of
      a turn and the signature cache. *)

From Stdlib Require Import ZArith Lia Ascii String.
From stdpp Require Import gmap strings list fin_maps.

#[local] Set Warnings "-register-all".

Local Open Scope Z_scope.

(** ** Data model of the account storage *)

(** JSON numbers that occur in the storage file are millisecond time stamps
    and array positions; they are modelled by integers. *)

Inductive SwitchReason := RateLimit | Initial | Rotation.

(** interface RateLimitState { claude?: number; gemini?: number } *)
Record RateLimitState := mkRateLimitState {
  claude : option Z;
  gemini : option Z
}.

(** interface AccountMetadataV1 *)
Record AccountMetadataV1 := mkAccountMetadataV1 {
  v1_email : option string;
  v1_refreshToken : string;
  v1_projectId : option string;
  v1_managedProjectId : option string;
  v1_addedAt : Z;
  v1_lastUsed : Z;
  v1_isRateLimited : option bool;
  v1_rateLimitResetTime : option Z;
  v1_lastSwitchReason : option SwitchReason
}.

(** interface AccountMetadata *)
Record AccountMetadata := mkAccountMetadata {
  email : option string;
  refreshToken : string;
  projectId : option string;
  managedProjectId : option string;
  addedAt : Z;
  lastUsed : Z;
  lastSwitchReason : option SwitchReason;
  rateLimitResetTimes : option RateLimitState
}.

(** ** JavaScript truthiness of the values the code tests *)

(** [!acc.email] is false exactly for a present, non-empty string. *)
Definition truthy_string (s : option string) : bool :=
  match s with
  | Some e => negb (String.eqb e "")
  | None => false
  end.

(** [x || 0] on a number. *)
Definition or0 (x : Z) : Z := if x =? 0 then 0 else x.

(** [acc.isRateLimited] used as a condition. *)
Definition truthy_bool (b : option bool) : bool :=
  match b with Some true => true | _ => false end.

(** [acc.rateLimitResetTime] used as a condition. *)
Definition truthy_number (n : option Z) : bool :=
  match n with Some t => negb (t =? 0) | None => false end.

(** ** deduplicateAccountsByEmail *)

(** The comparison of lines 158-164. *)
Definition isNewer (acc existing : AccountMetadata) : bool :=
  let currLastUsed := or0 (lastUsed acc) in
  let existLastUsed := or0 (lastUsed existing) in
  let currAddedAt := or0 (addedAt acc) in
  let existAddedAt := or0 (addedAt existing) in
  (currLastUsed >? existLastUsed) ||
  ((currLastUsed =? existLastUsed) && (currAddedAt >? existAddedAt)).

(** The two mutable collections of the function. *)
Record DedupState := mkDedupState {
  emailToNewestIndex : gmap string nat;
  indicesToKeep : gset nat
}.

(** [acc.email] when it passes the test [if (!acc.email)], that is, when it
    is a non-empty string: the key under which the account is de-duplicated. *)
Definition emailKey (acc : AccountMetadata) : option string :=
  if truthy_string (email acc) then email acc else None.

Definition setNewest (st : DedupState) (e : string) (i : nat) : DedupState :=
  mkDedupState (<[e := i]> (emailToNewestIndex st)) (indicesToKeep st).

Definition keepIndex (st : DedupState) (i : nat) : DedupState :=
  mkDedupState (emailToNewestIndex st) ({[ i ]} ∪ indicesToKeep st).

(** One iteration of the first loop, at index [i]. *)
Definition firstPassStep (accounts : list AccountMetadata)
    (st : DedupState) (i : nat) : DedupState :=
  match accounts !! i with
  | None => st                                  (* if (!acc) continue *)
  | Some acc =>
    match emailKey acc with
    | None => keepIndex st i                    (* if (!acc.email) *)
    | Some e =>
      match emailToNewestIndex st !! e with
      | None => setNewest st e i                (* existingIndex === undefined *)
      | Some existingIndex =>
        match accounts !! existingIndex with
        | None => setNewest st e i              (* if (!existing) *)
        | Some existing =>
          if isNewer acc existing then setNewest st e i else st
        end
      end
    end
  end.

(** The first loop run over the indices [0 .. n-1]. *)
Definition firstPassUpTo (accounts : list AccountMetadata) (n : nat) : DedupState :=
  foldl (firstPassStep accounts) (mkDedupState ∅ ∅) (seq 0 n).

Definition firstPass (accounts : list AccountMetadata) : DedupState :=
  firstPassUpTo accounts (length accounts).

(** The second loop: every value of the map is added to the keep set. *)
Definition keptIndices (accounts : list AccountMetadata) : gset nat :=
  let st := firstPass accounts in
  map_fold (λ _ idx keep, {[ idx ]} ∪ keep) (indicesToKeep st) (emailToNewestIndex st).

(** The third loop: the kept accounts are pushed in index order. *)
Definition collectKept (accounts : list AccountMetadata) (keep : gset nat)
  : list AccountMetadata :=
  foldl (λ result i,
           if bool_decide (i ∈ keep)
           then match accounts !! i with
                | Some acc => result ++ [acc]
                | None => result
                end
           else result)
        [] (seq 0 (length accounts)).

Definition deduplicateAccountsByEmail (accounts : list AccountMetadata)
  : list AccountMetadata :=
  collectKept accounts (keptIndices accounts).

(** Vocabulary of the statements about de-duplication. *)

(** [b] is strictly newer than [a]: greater lastUsed, or the same lastUsed
    and a greater addedAt. *)
Definition newer (b a : AccountMetadata) : Prop :=
  lastUsed a < lastUsed b ∨ (lastUsed a = lastUsed b ∧ addedAt a < addedAt b).

(** [b] is at least as new as [a]. *)
Definition atLeastAsNew (b a : AccountMetadata) : Prop :=
  lastUsed a < lastUsed b ∨ (lastUsed a = lastUsed b ∧ addedAt a ≤ addedAt b).

(** The elements of [l] whose position, counted from [i], lies in [kept]. *)
Fixpoint atPositions {A} (kept : gset nat) (i : nat) (l : list A) : list A :=
  match l with
  | [] => []
  | a :: l' =>
    if bool_decide (i ∈ kept)
    then a :: atPositions kept (S i) l'
    else atPositions kept (S i) l'
  end.


(** The state of the first loop after the positions below [k]: the keep set
    holds the positions of the accounts without email, and the map sends each
    email to the first position, among those seen, of a newest account. *)
Record FirstPassInv (accounts : list AccountMetadata) (k : nat)
    (st : DedupState) : Prop := {
  inv_keep : ∀ i, i ∈ indicesToKeep st ↔
    (i < k)%nat ∧ ∃ a, accounts !! i = Some a ∧ emailKey a = None;
  inv_newest : ∀ e j, emailToNewestIndex st !! e = Some j →
    (j < k)%nat ∧ ∃ b, accounts !! j = Some b ∧ emailKey b = Some e ∧
      ∀ i a, (i < k)%nat → accounts !! i = Some a → emailKey a = Some e →
        ((i < j)%nat → newer b a) ∧ atLeastAsNew b a;
  inv_absent : ∀ e, emailToNewestIndex st !! e = None →
    ∀ i a, (i < k)%nat → accounts !! i = Some a → emailKey a ≠ Some e
}.

(** ** Outcomes of runtime calls, the console and the disk *)

Inductive JsError :=
| SystemError (code : string)   (* an error of node:fs, carrying [code] *)
| TypeError                     (* a property read on [null] *)
| SyntaxError.                  (* raised by [JSON.parse] *)

(** [(error as NodeJS.ErrnoException).code] *)
Definition errorCode (e : JsError) : option string :=
  match e with
  | SystemError c => Some c
  | _ => None
  end.

Inductive Outcome (A : Type) :=
| Return (a : A)
| Throw (e : JsError).
Arguments Return {A} a.
Arguments Throw {A} e.

Inductive LogLevel := LogInfo | LogWarn | LogError.

Record LogLine := mkLogLine { level : LogLevel; message : string }.

(** An element of the [accounts] array as [JSON.parse] delivers it. The
    validation of [loadAccounts] accepts exactly the third form. *)
Inductive Raw (A : Type) :=
| RawNull                       (* null *)
| RawOther                      (* any other value that is not an object with a string refreshToken *)
| RawAccount (a : A).
Arguments RawNull {A}.
Arguments RawOther {A}.
Arguments RawAccount {A} a.

(** interface AccountStorageV1, before any validation. [activeIndex] is
    [Some n] for a finite number and [None] for anything else. *)
Record AccountStorageV1 := mkAccountStorageV1 {
  v1_accounts : list (Raw AccountMetadataV1);
  v1_activeIndex : option Z
}.

(** A value that the code treats as AccountStorage (after the cast of the
    parsed data, or after migration) before its validation. *)
Record ParsedStorage := mkParsedStorage {
  parsed_accounts : list (Raw AccountMetadata);
  parsed_activeIndex : option Z
}.

(** interface AccountStorage, as returned by [loadAccounts]. *)
Record AccountStorage := mkAccountStorage {
  version : Z;
  accounts : list AccountMetadata;
  activeIndex : Z
}.

(** The value of [JSON.parse(content)], seen through the tests the code makes. *)
Inductive StoredData :=
| DataNull                                  (* null: [data.accounts] throws *)
| DataNoArray                               (* [data.accounts] is not an array *)
| DataVersion1 (v1 : AccountStorageV1)      (* [data.version === 1] *)
| DataVersion2 (v2 : ParsedStorage)         (* [data.version === 2] *)
| DataOtherVersion.                         (* any other [data.version] *)

(** What [fs.readFile] followed by [JSON.parse] meets. *)
Inductive FileState :=
| ReadFails (e : JsError)
| NotJson
| Json (data : StoredData).

(** The surroundings of one call of [loadAccounts]: the file, whether
    [saveAccounts] fails, and the value of [Date.now()] while the account at
    a given position is migrated. *)
Record Env := mkEnv {
  file : FileState;
  saveError : option JsError;
  clock : nat → Z
}.

Record IoState := mkIoState {
  console : list LogLine;
  written : list ParsedStorage
}.

(** State and exception monad of the asynchronous functions. *)
Definition M (A : Type) : Type := IoState → Outcome A * IoState.

#[global] Instance Outcome_ret : MRet Outcome := λ A a, Return a.
#[global] Instance Outcome_bind : MBind Outcome := λ A B f m,
  match m with
  | Return a => f a
  | Throw e => Throw e
  end.

#[global] Instance M_ret : MRet M := λ A a st, (Return a, st).
#[global] Instance M_bind : MBind M := λ A B f m st,
  match m st with
  | (Return a, st') => f a st'
  | (Throw e, st') => (Throw e, st')
  end.

Definition throw {A} (e : JsError) : M A := λ st, (Throw e, st).

Definition lift {A} (o : Outcome A) : M A := λ st, (o, st).

Definition tryCatch {A} (body : M A) (handler : JsError → M A) : M A := λ st,
  match body st with
  | (Return a, st') => (Return a, st')
  | (Throw e, st') => handler e st'
  end.

Definition log (lv : LogLevel) (msg : string) : M unit := λ st,
  (Return tt, mkIoState (console st ++ [mkLogLine lv msg]) (written st)).

Definition writeFile (storage : ParsedStorage) : M unit := λ st,
  (Return tt, mkIoState (console st) (written st ++ [storage])).

(** ** migrateV1ToV2 *)

(** [Object.keys(rateLimitResetTimes).length] *)
Definition keysLength (r : RateLimitState) : Z :=
  (if claude r is Some _ then 1 else 0) + (if gemini r is Some _ then 1 else 0).

(** The callback of [v1.accounts.map], with [now] the value of [Date.now()]. *)
Definition migrateAccount (now : Z) (acc : AccountMetadataV1) : AccountMetadata :=
  let rateLimitResetTimes :=
    match v1_rateLimitResetTime acc with
    | Some t =>
      if truthy_bool (v1_isRateLimited acc)
         && truthy_number (v1_rateLimitResetTime acc)
         && (t >? now)
      then mkRateLimitState (Some t) (Some t)
      else mkRateLimitState None None
    | None => mkRateLimitState None None
    end in
  {| email := v1_email acc;
     refreshToken := v1_refreshToken acc;
     projectId := v1_projectId acc;
     managedProjectId := v1_managedProjectId acc;
     addedAt := v1_addedAt acc;
     lastUsed := v1_lastUsed acc;
     lastSwitchReason := v1_lastSwitchReason acc;
     rateLimitResetTimes :=
       if keysLength rateLimitResetTimes >? 0 then Some rateLimitResetTimes else None |}.

(** The callback on a raw element: reading a property of [null] throws; any
    other value without a string refreshToken yields an object without one. *)
Definition migrateRaw (now : Z) (r : Raw AccountMetadataV1)
  : Outcome (Raw AccountMetadata) :=
  match r with
  | RawNull => Throw TypeError
  | RawOther => Return RawOther
  | RawAccount acc => Return (RawAccount (migrateAccount now acc))
  end.

(** [Array.prototype.map] with a callback that may throw; [i] is the position
    of the head of [l] in the whole array. *)
Fixpoint mapFrom {A B} (f : nat → A → Outcome B) (i : nat) (l : list A)
  : Outcome (list B) :=
  match l with
  | [] => Return []
  | x :: l' =>
    y ← f i x;
    ys ← mapFrom f (S i) l';
    Return (y :: ys)
  end.

Definition migrateV1ToV2 (clk : nat → Z) (v1 : AccountStorageV1)
  : Outcome ParsedStorage :=
  accs ← mapFrom (λ i r, migrateRaw (clk i) r) 0%nat (v1_accounts v1);
  Return (mkParsedStorage accs (v1_activeIndex v1)).

(** ** saveAccounts and loadAccounts *)

Definition saveAccounts (env : Env) (storage : ParsedStorage) : M unit :=
  match saveError env with
  | Some e => throw e
  | None => writeFile storage
  end.

(** The filter of lines 246-248. *)
Definition isValidAccount {A} (a : Raw A) : option A :=
  match a with
  | RawAccount acc => Some acc
  | _ => None
  end.

Definition validAccounts (l : list (Raw AccountMetadata)) : list AccountMetadata :=
  omap isValidAccount l.

(** Lines 253-260. *)
Definition clampActiveIndex (stored : option Z) (len : nat) : Z :=
  let activeIndex := match stored with Some n => n | None => 0 end in
  if (0 <? Z.of_nat len)
  then Z.max (Z.min activeIndex (Z.of_nat len - 1)) 0
  else 0.

(** Lines 245-266: validation, de-duplication, clamping. *)
Definition finishLoad (storage : ParsedStorage) : AccountStorage :=
  let valid := validAccounts (parsed_accounts storage) in
  let deduplicatedAccounts := deduplicateAccountsByEmail valid in
  {| version := 2;
     accounts := deduplicatedAccounts;
     activeIndex := clampActiveIndex (parsed_activeIndex storage)
                                     (length deduplicatedAccounts) |}.

Definition readAndParse (env : Env) : M StoredData :=
  match file env with
  | ReadFails e => throw e
  | NotJson => throw SyntaxError
  | Json data => mret data
  end.

(** The body of the [try] block. *)
Definition loadAccountsTry (env : Env) : M (option AccountStorage) :=
  data ← readAndParse env;
  match data with
  | DataNull => throw TypeError
  | DataNoArray =>
    log LogWarn "[opencode-antigravity-auth] Invalid storage format, ignoring";;
    mret None
  | DataVersion1 v1 =>
    log LogInfo "[opencode-antigravity-auth] Migrating account storage from v1 to v2";;
    storage ← lift (migrateV1ToV2 (clock env) v1);
    tryCatch
      (saveAccounts env storage;;
       log LogInfo "[opencode-antigravity-auth] Migration to v2 complete")
      (λ _, log LogWarn "[opencode-antigravity-auth] Failed to persist migrated storage:");;
    mret (Some (finishLoad storage))
  | DataVersion2 storage => mret (Some (finishLoad storage))
  | DataOtherVersion =>
    log LogWarn "[opencode-antigravity-auth] Unknown storage version, ignoring";;
    mret None
  end.

Definition loadAccounts (env : Env) : M (option AccountStorage) :=
  tryCatch (loadAccountsTry env)
    (λ error,
       if bool_decide (errorCode error = Some "ENOENT")
       then mret None
       else
         log LogError "[opencode-antigravity-auth] Failed to load account storage:";;
         mret None).


(** ** Schema sanitizer *)

(** A JSON value; an object is a finite map from member names to values. *)
Inductive json :=
| JNull
| JBool (b : bool)
| JNum (z : Z)
| JStr (s : string)
| JArr (l : list json)
| JObj (o : gmap string json).

Definition allowedKeys : list string :=
  ["type"; "properties"; "required"; "description"; "enum"; "items";
   "additionalProperties"].

(** Rule 2: [const: V] becomes [enum: [V]]. *)
Definition rewriteConst (o : gmap string json) : gmap string json :=
  match o !! "const" with
  | Some v => <["enum" := JArr [v]]> (delete "const" o)
  | None => o
  end.

(** Rule 1: keys outside the allowlist are dropped. *)
Definition dropUnsupported (o : gmap string json) : gmap string json :=
  filter (λ kv, kv.1 ∈ allowedKeys) o.

Definition reasonDescription : string :=
  "Brief explanation of why you are calling this tool".

Definition reasonProperty : json :=
  JObj {[ "type" := JStr "string"; "description" := JStr reasonDescription ]}.

Definition placeholderProperties : gmap string json :=
  {[ "reason" := reasonProperty ]}.

Definition isReasonName (j : json) : bool :=
  match j with
  | JStr s => String.eqb s "reason"
  | _ => false
  end.

Definition addReason (required : option json) : json :=
  match required with
  | Some (JArr l) =>
    if existsb isReasonName l then JArr l else JArr (l ++ [JStr "reason"])
  | _ => JArr [JStr "reason"]
  end.

Definition hasNoProperties (o : gmap string json) : bool :=
  match o !! "properties" with
  | Some (JObj ps) => (size ps =? 0)%nat
  | _ => true
  end.

Definition isObjectType (o : gmap string json) : bool :=
  match o !! "type" with
  | Some (JStr t) => String.eqb t "object"
  | _ => false
  end.

(** Rule 3: an object schema without properties gets the placeholder. *)
Definition injectPlaceholder (o : gmap string json) : gmap string json :=
  if isObjectType o && hasNoProperties o
  then <["required" := addReason (o !! "required")]>
         (<["properties" := JObj placeholderProperties]> o)
  else o.

(** The form to which a value that is not an object degrades. *)
Definition placeholderSchema : json :=
  JObj {[ "type" := JStr "object";
          "properties" := JObj placeholderProperties;
          "required" := JArr [JStr "reason"] ]}.

(** Rule 4: an [items] schema that came out empty. *)
Definition fixEmptyItems (items : json) : json :=
  match items with
  | JObj o => if (size o =? 0)%nat then JObj {[ "type" := JStr "string" ]} else items
  | _ => items
  end.

(** The treatment of the members that hold schemas, given the sanitizer
    [san] for those schemas: every schema under [properties] is sanitized (a
    [properties] that is not an object is dropped), and so is [items]
    (rule 4). *)
Definition nestedStep (san : json → json) (k : string) (v : json) : option json :=
  if decide (k = "properties") then
    match v with
    | JObj ps => Some (JObj (san <$> ps))
    | _ => None
    end
  else if decide (k = "items") then Some (fixEmptyItems (san v))
  else Some v.

(** Modelled from the spec: sanitizeSchema of src/plugin/request.ts, which is
    not among the sources. Section 4.1 of the specification: the sanitizer is
    applied recursively to the schemas under [properties] and to [items]
    (rule 4); [const] is rewritten (rule 2) before the allowlist is applied
    (rule 1); an object schema left without properties receives the
    placeholder (rule 3); a value of an unrecognized shape degrades to the
    placeholder form. *)
Fixpoint sanitizeSchema (s : json) : json :=
  match s with
  | JObj o =>
    JObj (injectPlaceholder
            (dropUnsupported (rewriteConst (map_imap (nestedStep sanitizeSchema) o))))
  | _ => placeholderSchema
  end.

(** The members of a sanitized object before the placeholder rule. *)
Definition staged (o : gmap string json) : gmap string json :=
  dropUnsupported (rewriteConst (map_imap (nestedStep sanitizeSchema) o)).

(** An object on which no rule has anything left to do. *)
Record Clean (o : gmap string json) : Prop := {
  clean_keys : ∀ k, is_Some (o !! k) → k ∈ allowedKeys;
  clean_properties : ∀ v, o !! "properties" = Some v →
    ∃ ps, v = JObj ps ∧ sanitizeSchema <$> ps = ps;
  clean_items : ∀ v, o !! "items" = Some v → fixEmptyItems (sanitizeSchema v) = v;
  clean_placeholder : isObjectType o && hasNoProperties o = false
}.

(** A measure of JSON values under which the members of an object and the
    elements of an array are smaller than the whole. *)
Fixpoint jsize (j : json) : nat :=
  match j with
  | JObj o => S (map_fold (λ _ v r, jsize v + r)%nat 0%nat o)
  | JArr l => S (foldr (λ v r, jsize v + r)%nat 0%nat l)
  | _ => 1%nat
  end.




(** Rule 5: characters outside [a-zA-Z0-9_-] become an underscore. *)
Definition isNameChar (c : ascii) : bool :=
  let n := nat_of_ascii c in
  ((97 <=? n) && (n <=? 122) || (65 <=? n) && (n <=? 90) ||
   (48 <=? n) && (n <=? 57) || (n =? 95) || (n =? 45))%nat.

Definition sanitizeChar (c : ascii) : ascii :=
  if isNameChar c then c else "_"%char.

(** Modelled from the spec: the rewriting of tool and function names of
    src/plugin/request.ts, which is not among the sources (rule 5 of
    section 4.1). *)
Definition sanitizeName (name : string) : string :=
  string_of_list_ascii (take 64 (sanitizeChar <$> list_ascii_of_string name)).

(** ** Thinking blocks at the end of a turn *)

Inductive Role := System | User | Assistant | Tool.

(** A content block, tagged; a thinking block may carry a signature. *)
Inductive Block :=
| Text (text : string)
| ToolCall (id name args : string)
| ToolResult (id content : string)
| Thinking (text : string) (signature : option string).

Record Turn := mkTurn { role : Role; blocks : list Block }.

Definition isThinking (b : Block) : bool :=
  match b with
  | Thinking _ _ => true
  | _ => false
  end.

(** Modelled from the spec: hasValidSignature of
    src/plugin/request-helpers.ts, which is not among the sources: a
    signature is valid when it is a string of at least 50 characters. *)
Definition hasValidSignature (b : Block) : bool :=
  match b with
  | Thinking _ (Some sig) => (50 <=? String.length sig)%nat
  | _ => false
  end.

Definition isUnsignedThinking (b : Block) : bool :=
  isThinking b && negb (hasValidSignature b).

(** At most [fuel] rounds of: while the last block is a thinking block
    without a valid signature, pop it. *)
Fixpoint popTrailing (fuel : nat) (result : list Block) : list Block :=
  match fuel with
  | O => result
  | S fuel' =>
    match last result with
    | Some b =>
      if isUnsignedThinking b then popTrailing fuel' (removelast result) else result
    | None => result
    end
  end.

(** Modelled from the spec: removeTrailingThinkingBlocks of
    src/plugin/request-helpers.ts, which is not among the sources
    (section 4.2: a trailing thinking block is removed unless it carries a
    valid signature). *)
Definition removeTrailingThinkingBlocks (content : list Block) : list Block :=
  popTrailing (length content) content.

(** Modelled from the spec: the part of the thinking filter of
    src/plugin/request-helpers.ts that treats the end of a turn, which is not
    among the sources: the rule applies to turns written by the assistant. *)
Definition filterTurn (t : Turn) : Turn :=
  match role t with
  | Assistant => mkTurn (role t) (removeTrailingThinkingBlocks (blocks t))
  | _ => t
  end.

(** ** Signature cache *)

(** The scoped key: session, model, project and conversation. *)
Definition CacheKey : Type := string * string * string * string.

Definition sessionOf (k : CacheKey) : string := k.1.1.1.

(** interface SignedThinking *)
Record SignedThinking := mkSignedThinking {
  st_text : string;
  st_signature : string
}.

Record CacheEntry := mkCacheEntry {
  entry_value : SignedThinking;
  expiresAt : Z
}.

Definition CACHE_TTL_MS : Z := 3600000.
Definition MAX_ENTRIES_PER_SESSION : nat := 100.

Definition sessionEntries (session : string) (c : gmap CacheKey CacheEntry)
  : gmap CacheKey CacheEntry :=
  filter (λ kv, sessionOf kv.1 = session) c.

(** The entry of least expiry, that is, the one inserted first. *)
Definition older (x : CacheKey * CacheEntry) (best : option (CacheKey * CacheEntry))
  : option (CacheKey * CacheEntry) :=
  match best with
  | None => Some x
  | Some y => if expiresAt x.2 <? expiresAt y.2 then Some x else Some y
  end.

Definition oldestEntry (c : gmap CacheKey CacheEntry) : option (CacheKey * CacheEntry) :=
  foldr older None (map_to_list c).

(** Modelled from the spec: the signature cache of src/plugin/cache.ts, which
    is not among the sources (only the interface SignatureStore is). Section
    4.5: an entry expires one hour after its insertion; a session holds at
    most 100 entries and an insertion beyond that evicts its oldest entry;
    inserting under an existing key overwrites and refreshes the expiry. *)
Definition cacheSet (now : Z) (k : CacheKey) (v : SignedThinking)
    (c : gmap CacheKey CacheEntry) : gmap CacheKey CacheEntry :=
  let e := mkCacheEntry v (now + CACHE_TTL_MS) in
  match c !! k with
  | Some _ => <[k := e]> c
  | None =>
    let mine := sessionEntries (sessionOf k) c in
    if bool_decide (size mine < MAX_ENTRIES_PER_SESSION)%nat then <[k := e]> c
    else
      match oldestEntry mine with
      | Some (ko, _) => <[k := e]> (delete ko c)
      | None => <[k := e]> c
      end
  end.

(** Modelled from the spec: [get] of the signature cache, which is not
    among the sources: no entry is returned once it has expired. *)
Definition cacheGet (now : Z) (k : CacheKey) (c : gmap CacheKey CacheEntry)
  : option SignedThinking :=
  match c !! k with
  | Some e => if now <? expiresAt e then Some (entry_value e) else None
  | None => None
  end.

Definition cacheHas (now : Z) (k : CacheKey) (c : gmap CacheKey CacheEntry) : bool :=
  bool_decide (is_Some (cacheGet now k c)).

Definition cacheDelete (k : CacheKey) (c : gmap CacheKey CacheEntry)
  : gmap CacheKey CacheEntry :=
  delete k c.

(** The operations that change the cache, with the time of each insertion. *)
Inductive CacheOp :=
| OpSet (now : Z) (k : CacheKey) (v : SignedThinking)
| OpDelete (k : CacheKey).

Definition applyOp (c : gmap CacheKey CacheEntry) (op : CacheOp)
  : gmap CacheKey CacheEntry :=
  match op with
  | OpSet now k v => cacheSet now k v c
  | OpDelete k => cacheDelete k c
  end.

(** The cache after a history of operations, starting empty. *)
Definition runCache (ops : list CacheOp) : gmap CacheKey CacheEntry :=
  foldl applyOp ∅ ops.


(** ** The storage file across calls *)

(** An account of the current schema as a reader of the old schema sees it:
    the old fields isRateLimited and rateLimitResetTime are not there. *)
Definition asV1 (a : AccountMetadata) : AccountMetadataV1 :=
  mkAccountMetadataV1 (email a) (refreshToken a) (projectId a)
    (managedProjectId a) (addedAt a) (lastUsed a) None None (lastSwitchReason a).

(** The argument of [saveAccounts] for a value of the interface
    AccountStorage: every account is an object with a string refreshToken
    and the active index is a number. *)
Definition asParsed (s : AccountStorage) : ParsedStorage :=
  mkParsedStorage (RawAccount <$> accounts s) (Some (activeIndex s)).

(** What [JSON.parse] makes of the text that [JSON.stringify] produced for
    [s]: the same accounts and active index under the version of [s]. *)
Definition storedData (s : AccountStorage) : StoredData :=
  if version s =? 2 then DataVersion2 (asParsed s)
  else if version s =? 1 then
    DataVersion1 (mkAccountStorageV1 ((λ a, RawAccount (asV1 a)) <$> accounts s)
                                     (Some (activeIndex s)))
  else DataOtherVersion.

(** [saveAccounts(s)] followed by [loadAccounts()]: the second call reads the
    file that the first has written. *)
Definition saveThenLoad (env : Env) (s : AccountStorage) : M (option AccountStorage) :=
  saveAccounts env (asParsed s);;
  loadAccounts (mkEnv (Json (storedData s)) (saveError env) (clock env)).

(** The file after a call of [loadAccounts] that started from [before] and
    left the state [st]: the last storage written, of version 2, if the
    call wrote one. *)
Definition fileAfter (before : FileState) (st : IoState) : FileState :=
  match last (written st) with
  | Some storage => Json (DataVersion2 storage)
  | None => before
  end.

(** export async function clearAccounts; [unlinkError] is the error with
    which [fs.unlink] rejects, if it does. *)
Definition clearAccounts (unlinkError : option JsError) : M unit :=
  tryCatch
    (match unlinkError with
     | Some e => throw e
     | None => mret tt
     end)
    (λ error,
       if bool_decide (errorCode error ≠ Some "ENOENT")
       then log LogError "[opencode-antigravity-auth] Failed to clear account storage:"
       else mret tt).

(** The file after [clearAccounts]: a file that was unlinked is missing. *)
Definition fileAfterClear (before : FileState) (unlinkError : option JsError)
  : FileState :=
  match unlinkError with
  | None => ReadFails (SystemError "ENOENT")
  | Some _ => before
  end.

(** [activeIndex] of the stored data, when the data has an array of
    accounts under version 1 or 2 and the index is a finite number. *)
Definition storedActiveIndex (f : FileState) : option Z :=
  match f with
  | Json (DataVersion1 v1) => v1_activeIndex v1
  | Json (DataVersion2 v2) => parsed_activeIndex v2
  | _ => None
  end.

(** ** Locations (constants.ts, lines 4-32 and 114-126) *)

(** What the code reads of the process: the platform, three variables of
    the environment and the home directory. *)
Record Process := mkProcess {
  platform : string;
  LOCALAPPDATA : option string;
  APPDATA : option string;
  XDG_CONFIG_HOME : option string;
  homedir : string
}.

(** [x ?? d] on a string that may be undefined. *)
Definition nullish (x : option string) (d : string) : string :=
  match x with
  | Some v => v
  | None => d
  end.

(** [x || d] on a string that may be undefined. *)
Definition orElse (x : option string) (d : string) : string :=
  match x with
  | Some v => if String.eqb v "" then d else v
  | None => d
  end.

Definition PACKAGE_NAME : string := "opencode-antigravity-auth".

Definition NPM_REGISTRY_URL : string :=
  "https://registry.npmjs.org/-/package/" +:+ PACKAGE_NAME +:+ "/dist-tags".

Definition NPM_FETCH_TIMEOUT : Z := 5000.

Section locations.
(** [path.join] of node:path, applied to its arguments in order. *)
Variable join : list string → string.

Definition getCacheDir (p : Process) : string :=
  if String.eqb (platform p) "win32"
  then join [nullish (LOCALAPPDATA p) (homedir p); "opencode"]
  else join [homedir p; ".cache"; "opencode"].

Definition CACHE_DIR (p : Process) : string := getCacheDir p.

Definition INSTALLED_PACKAGE_JSON (p : Process) : string :=
  join [CACHE_DIR p; "node_modules"; PACKAGE_NAME; "package.json"].

Definition getUserConfigDir (p : Process) : string :=
  if String.eqb (platform p) "win32"
  then nullish (APPDATA p) (join [homedir p; "AppData"; "Roaming"])
  else nullish (XDG_CONFIG_HOME p) (join [homedir p; ".config"]).

Definition USER_CONFIG_DIR (p : Process) : string := getUserConfigDir p.

Definition USER_OPENCODE_CONFIG (p : Process) : string :=
  join [USER_CONFIG_DIR p; "opencode"; "opencode.json"].

Definition USER_OPENCODE_CONFIG_JSONC (p : Process) : string :=
  join [USER_CONFIG_DIR p; "opencode"; "opencode.jsonc"].

Definition getConfigDir (p : Process) : string :=
  if String.eqb (platform p) "win32"
  then join [orElse (APPDATA p) (join [homedir p; "AppData"; "Roaming"]); "opencode"]
  else
    let xdgConfig := orElse (XDG_CONFIG_HOME p) (join [homedir p; ".config"]) in
    join [xdgConfig; "opencode"].

Definition getStoragePath (p : Process) : string :=
  join [getConfigDir p; "antigravity-accounts.json"].
End locations.

(** The variable that names the configuration directory on the platform. *)
Definition configVariable (p : Process) : option string :=
  if String.eqb (platform p) "win32" then APPDATA p else XDG_CONFIG_HOME p.

(** ** The update checker at start-up (index.ts) *)

Module AutoUpdate.

(** The description of the plugin entry that [findPluginEntry] returns, as
    far as index.ts reads it. *)
Record PluginInfo := mkPluginInfo {
  entry : string;
  isPinned : bool;
  pinnedVersion : option string;
  configPath : string
}.

(** [options], both fields optional. *)
Record AutoUpdateCheckerOptions := mkOptions {
  showStartupToast : option bool;
  autoUpdate : option bool
}.

Inductive Variant := VariantInfo | VariantWarning | VariantSuccess | VariantError.

(** The body given to [client.tui.showToast]. *)
Record ToastBody := mkToastBody {
  title : option string;
  message : string;
  variant : Variant;
  duration : option Z
}.

(** An event as the handler reads it: [event.type] and
    [event.properties?.info?.parentID]. *)
Record PluginEvent := mkPluginEvent {
  type : string;
  parentID : option string
}.

(** The functions of ./checker and ./cache and the rendering of an error
    in a template string, with what each call yields. *)
Record Collaborators := mkCollaborators {
  getLocalDevVersion : string → Outcome (option string);
  findPluginEntry : string → Outcome (option PluginInfo);
  getCachedVersion : Outcome (option string);
  getLatestVersion : Outcome (option string);
  updatePinnedVersion : string → string → string → Outcome bool;
  invalidatePackage : string → Outcome unit;
  errorText : JsError → string
}.

(** What a run does to the outside, in order. *)
Inductive Effect :=
| Toast (body : ToastBody)
| DebugLog (line : string)
| CallGetLocalDevVersion (directory : string)
| CallFindPluginEntry (directory : string)
| CallGetCachedVersion
| CallGetLatestVersion
| CallUpdatePinnedVersion (config entryName version : string)
| CallInvalidatePackage (name : string).

(** Effects so far, and a value or a raised error. *)
Definition T (A : Type) : Type := list Effect → Outcome A * list Effect.

#[global] Instance T_ret : MRet T := λ A a tr, (Return a, tr).
#[global] Instance T_bind : MBind T := λ A B f m tr,
  match m tr with
  | (Return a, tr') => f a tr'
  | (Throw e, tr') => (Throw e, tr')
  end.

Definition emit (e : Effect) : T unit := λ tr, (Return tt, tr ++ [e]).

(** A call of a collaborator: the call is recorded and yields its outcome. *)
Definition call {A} (e : Effect) (o : Outcome A) : T A := λ tr, (o, tr ++ [e]).

(** [promise.catch(handler)] *)
Definition catch {A} (body : T A) (handler : JsError → T A) : T A := λ tr,
  match body tr with
  | (Return a, tr') => (Return a, tr')
  | (Throw e, tr') => handler e tr'
  end.

(** function debugLog; [debugLogToFile] is taken to return. *)
Definition debugLog (line : string) : T unit := emit (DebugLog line).

(** [client.tui.showToast(...).catch(() => {})]: a rejection is swallowed. *)
Definition showToast (body : ToastBody) : T unit := emit (Toast body).

(** A string that passes a test of truthiness. *)
Definition truthyString (s : option string) : option string :=
  if truthy_string s then s else None.

Definition newline : string := String (ascii_of_nat 10) EmptyString.

Definition showUpdateAvailableToast (latestVersion : string) : T unit :=
  showToast
    (mkToastBody (Some "Antigravity Auth Update")
       ("v" +:+ latestVersion +:+ " available. Restart OpenCode to apply.")
       VariantInfo (Some 8000));;
  debugLog ("[auto-update-checker] Update available toast shown: v" +:+ latestVersion).

Definition showAutoUpdatedToast (oldVersion newVersion : string) : T unit :=
  showToast
    (mkToastBody (Some "Antigravity Auth Updated!")
       ("v" +:+ oldVersion +:+ " → v" +:+ newVersion +:+ newline
        +:+ "Restart OpenCode to apply.")
       VariantSuccess (Some 8000));;
  debugLog ("[auto-update-checker] Auto-updated toast shown: v" +:+ oldVersion
            +:+ " → v" +:+ newVersion).

(** [showLocalDevToast] up to its [await], and after it. *)
Definition showLocalDevToastCall (version : string) : T unit :=
  showToast
    (mkToastBody (Some ("Antigravity Auth " +:+ version +:+ " (dev)"))
       "Running in local development mode."
       VariantWarning (Some 5000)).

Definition showLocalDevToastRest (version : string) : T unit :=
  debugLog ("[auto-update-checker] Local dev toast shown: v" +:+ version).

Definition showLocalDevToast (version : string) : T unit :=
  showLocalDevToastCall version;;
  showLocalDevToastRest version.

Definition runBackgroundUpdateCheck (c : Collaborators) (directory : string)
    (autoUpdate : bool) : T unit :=
  pluginInfo ← call (CallFindPluginEntry directory) (findPluginEntry c directory);
  match pluginInfo with
  | None => debugLog "[auto-update-checker] Plugin not found in config"
  | Some pluginInfo =>
    cachedVersion ← call CallGetCachedVersion (getCachedVersion c);
    let currentVersion :=
      match cachedVersion with
      | Some v => Some v
      | None => pinnedVersion pluginInfo
      end in
    match truthyString currentVersion with
    | None => debugLog "[auto-update-checker] No version found (cached or pinned)"
    | Some currentVersion =>
      latestVersion ← call CallGetLatestVersion (getLatestVersion c);
      match truthyString latestVersion with
      | None => debugLog "[auto-update-checker] Failed to fetch latest version"
      | Some latestVersion =>
        if String.eqb currentVersion latestVersion
        then debugLog "[auto-update-checker] Already on latest version"
        else
          debugLog ("[auto-update-checker] Update available: " +:+ currentVersion
                    +:+ " → " +:+ latestVersion);;
          if negb autoUpdate then
            showUpdateAvailableToast latestVersion;;
            debugLog "[auto-update-checker] Auto-update disabled, notification only"
          else if isPinned pluginInfo then
            updated ← call (CallUpdatePinnedVersion (configPath pluginInfo)
                                                    (entry pluginInfo) latestVersion)
                           (updatePinnedVersion c (configPath pluginInfo)
                                                (entry pluginInfo) latestVersion);
            if (updated : bool) then
              call (CallInvalidatePackage PACKAGE_NAME) (invalidatePackage c PACKAGE_NAME);;
              showAutoUpdatedToast currentVersion latestVersion;;
              debugLog ("[auto-update-checker] Config updated: " +:+ entry pluginInfo
                        +:+ " → " +:+ PACKAGE_NAME +:+ "@" +:+ latestVersion)
            else showUpdateAvailableToast latestVersion
          else
            call (CallInvalidatePackage PACKAGE_NAME) (invalidatePackage c PACKAGE_NAME);;
            showUpdateAvailableToast latestVersion
      end
    end
  end.

(** The callback given to [setTimeout]. The toast of local development is
    not awaited: the line of the callback is logged between the call of
    [showToast] and the line that follows the [await]. *)
Definition timerCallback (c : Collaborators) (directory : string)
    (showStartupToast autoUpdate : bool) : T unit :=
  localDevVersion ← call (CallGetLocalDevVersion directory)
                         (getLocalDevVersion c directory);
  match truthyString localDevVersion with
  | Some localDevVersion =>
    (if showStartupToast then showLocalDevToastCall localDevVersion else mret tt);;
    debugLog "[auto-update-checker] Local development mode";;
    (if showStartupToast then showLocalDevToastRest localDevVersion else mret tt)
  | None =>
    catch (runBackgroundUpdateCheck c directory autoUpdate)
          (λ err, debugLog ("[auto-update-checker] Background update check failed: "
                            +:+ errorText c err))
  end.

(** A field of [options] with its default. *)
Definition withDefault (o : option bool) : bool :=
  match o with
  | Some b => b
  | None => true
  end.

(** The handler [event] of the hook: the new value of [hasChecked] and
    whether the timer was set. *)
Definition event (hasChecked : bool) (ev : PluginEvent) : bool * bool :=
  if negb (String.eqb (type ev) "session.created") then (hasChecked, false)
  else if hasChecked then (hasChecked, false)
  else if truthy_string (parentID ev) then (hasChecked, false)
  else (true, true).

(** The handler applied to the events in order, from position [i]: the last
    value of [hasChecked] and the positions at which the timer was set. *)
Fixpoint handleEvents (hasChecked : bool) (i : nat) (events : list PluginEvent)
  : bool * list nat :=
  match events with
  | [] => (hasChecked, [])
  | ev :: rest =>
    let '(hasChecked', timer) := event hasChecked ev in
    let '(final, timers) := handleEvents hasChecked' (S i) rest in
    (final, if timer then i :: timers else timers)
  end.

(** createAutoUpdateCheckerHook: [hasChecked] starts false; what the timer
    runs is [timerCallback] with the options or their defaults. *)
Definition createAutoUpdateCheckerHook (c : Collaborators) (directory : string)
    (options : AutoUpdateCheckerOptions) (events : list PluginEvent)
  : (bool * list nat) * T unit :=
  (handleEvents false 0 events,
   timerCallback c directory (withDefault (showStartupToast options))
                 (withDefault (autoUpdate options))).

(** An event that sets the timer if none was set before: a created session
    that has no parent. *)
Definition isRootSessionCreated (ev : PluginEvent) : bool :=
  String.eqb (type ev) "session.created" && negb (truthy_string (parentID ev)).

(** The effects of a run that starts with none. *)
Definition effectsOf {A} (run : T A) : list Effect := (run []).2.

Definition isToast (e : Effect) : bool :=
  match e with
  | Toast _ => true
  | _ => false
  end.

(** The number of toasts among effects. *)
Definition toastCount (l : list Effect) : nat := length (List.filter isToast l).

(** The plugin entry, the current version and the latest version when the
    check finds an update: the entry is found, a current version is known
    (the cached one, else the pinned one), the latest version is fetched and
    differs from it. *)
Definition updateAvailable (c : Collaborators) (directory : string)
  : option (PluginInfo * string * string) :=
  match findPluginEntry c directory with
  | Return (Some pluginInfo) =>
    match getCachedVersion c with
    | Return cachedVersion =>
      match truthyString (match cachedVersion with
                          | Some v => Some v
                          | None => pinnedVersion pluginInfo
                          end) with
      | Some current =>
        match getLatestVersion c with
        | Return latestVersion =>
          match truthyString latestVersion with
          | Some latest =>
            if String.eqb current latest then None
            else Some (pluginInfo, current, latest)
          | None => None
          end
        | Throw _ => None
        end
      | None => None
      end
    | Throw _ => None
    end
  | _ => None
  end.

(** Collaborators of a checkout in local development. *)
Definition devCollaborators : Collaborators :=
  mkCollaborators (λ _, Return (Some "1.2.3")) (λ _, Return None) (Return None)
    (Return None) (λ _ _ _, Return false) (λ _, Return tt) (λ _, "Error").

End AutoUpdate.

(** ** Sample values *)

Definition alice_old : AccountMetadata :=
  mkAccountMetadata (Some "alice@example.com") "token-1" None None 100 500 None None.
Definition alice_twin : AccountMetadata :=
  mkAccountMetadata (Some "alice@example.com") "token-2" None None 100 500 None None.
Definition bob : AccountMetadata :=
  mkAccountMetadata (Some "bob@example.com") "token-3" (Some "proj") None 200 900
    (Some Rotation) None.
Definition limited_v1 : AccountMetadataV1 :=
  mkAccountMetadataV1 (Some "carol@example.com") "token-4" None None 300 800
    (Some true) (Some 5000) (Some RateLimit).

Definition quiet : IoState := mkIoState [] [].

Definition env_of (data : StoredData) : Env :=
  mkEnv (Json data) None (λ _, 1000).

(** A cache in which one session holds 100 entries, inserted at the times
    0, 1, ..., 99, and another session holds one. *)
Definition sampleKey (i : nat) : CacheKey :=
  ("session-1", "claude-sonnet", "project-a",
   String (ascii_of_nat (33 + i)) EmptyString).

Definition otherKey : CacheKey :=
  ("session-2", "claude-sonnet", "project-a", "conversation").

Definition sampleEntry (i : nat) : CacheEntry :=
  mkCacheEntry (mkSignedThinking "thought" "signature")
               (Z.of_nat i + CACHE_TTL_MS).

Definition sampleCache : gmap CacheKey CacheEntry :=
  <[otherKey := sampleEntry 3]>
    (list_to_map ((λ i, (sampleKey i, sampleEntry i)) <$> seq 0 100)).

(** * Properties *)

(** ** De-duplication *)

Section dedup.
Implicit Types (accounts : list AccountMetadata) (st : DedupState).

Lemma or0_id x : or0 x = x.
Proof. unfold or0. destruct (Z.eqb_spec x 0); lia. Qed.

Lemma isNewer_spec b a : isNewer b a = true ↔ newer b a.
Proof.
  unfold isNewer, newer. rewrite !or0_id.
  rewrite orb_true_iff, andb_true_iff, !Z.gtb_ltb, !Z.ltb_lt, Z.eqb_eq. lia.
Qed.

Lemma not_newer b a : ¬ newer b a ↔ atLeastAsNew a b.
Proof. unfold newer, atLeastAsNew. lia. Qed.

Lemma atLeastAsNew_refl a : atLeastAsNew a a.
Proof. unfold atLeastAsNew. lia. Qed.

Lemma newer_atLeastAsNew c b a : newer c b → atLeastAsNew b a → newer c a.
Proof. unfold newer, atLeastAsNew. lia. Qed.

Lemma newer_weaken b a : newer b a → atLeastAsNew b a.
Proof. unfold newer, atLeastAsNew. lia. Qed.

Lemma emailKey_Some a e : emailKey a = Some e → email a = Some e ∧ e ≠ "".
Proof.
  unfold emailKey, truthy_string. destruct (email a) as [e'|]; [|done].
  destruct (String.eqb_spec e' ""); simpl; [done|]. by intros [= ->].
Qed.

Lemma firstPassInv_init accounts :
  FirstPassInv accounts 0 (mkDedupState ∅ ∅).
Proof.
  split; simpl.
  - intros i. split; [set_solver | lia].
  - intros e j. by rewrite lookup_empty.
  - intros; lia.
Qed.

Lemma firstPassInv_step accounts k st :
  (k < length accounts)%nat →
  FirstPassInv accounts k st →
  FirstPassInv accounts (S k) (firstPassStep accounts st k).
Proof.
  intros Hk [Hkeep Hnew Habs].
  destruct (lookup_lt_is_Some_2 accounts k Hk) as [acc Hacc].
  unfold firstPassStep. rewrite Hacc.
  destruct (emailKey acc) as [e|] eqn:Hkey.
  - destruct (emailToNewestIndex st !! e) as [j|] eqn:Hm.
    + destruct (Hnew e j Hm) as (Hj & b & Hb & Hbkey & Hbest).
      rewrite Hb.
      destruct (isNewer acc b) eqn:Hcmp.
      * (* the current account replaces the recorded one *)
        apply isNewer_spec in Hcmp.
        split; simpl.
        -- intros i. rewrite Hkeep. split.
           ++ intros [? ?]. split; [lia | done].
           ++ intros [Hi (a & Ha & Hn)]. split; [|eauto].
              destruct (decide (i = k)) as [->|]; [|lia]. congruence.
        -- intros e' j'. destruct (decide (e = e')) as [<-|Hne].
           ++ rewrite lookup_insert_eq. intros [= <-].
              split; [lia|]. exists acc. split_and!; [done..|].
              intros i a Hi Ha Hakey.
              destruct (decide (i = k)) as [->|].
              ** assert (a = acc) as -> by congruence.
                 split; [lia | apply atLeastAsNew_refl].
              ** destruct (Hbest i a ltac:(lia) Ha Hakey) as [_ Hle].
                 pose proof (newer_atLeastAsNew _ _ _ Hcmp Hle).
                 split; [done | by apply newer_weaken].
           ++ rewrite lookup_insert_ne by done. intros Hm'.
              destruct (Hnew e' j' Hm') as (Hj' & b' & Hb' & Hb'key & Hbest').
              split; [lia|]. exists b'. split_and!; [done..|].
              intros i a Hi Ha Hakey.
              destruct (decide (i = k)) as [->|]; [congruence|].
              apply Hbest'; [lia | done..].
        -- intros e'. destruct (decide (e = e')) as [<-|Hne].
           ++ by rewrite lookup_insert_eq.
           ++ rewrite lookup_insert_ne by done. intros Hm' i a Hi Ha.
              destruct (decide (i = k)) as [->|]; [congruence|].
              apply (Habs e' Hm' i a); [lia | done].
      * (* the recorded account stays *)
        assert (atLeastAsNew b acc) as Hle.
        { apply not_newer. rewrite <-isNewer_spec. congruence. }
        split.
        -- intros i. rewrite Hkeep. split.
           ++ intros [? ?]. split; [lia | done].
           ++ intros [Hi (a & Ha & Hn)]. split; [|eauto].
              destruct (decide (i = k)) as [->|]; [|lia]. congruence.
        -- intros e' j' Hm'.
           destruct (Hnew e' j' Hm') as (Hj' & b' & Hb' & Hb'key & Hbest').
           split; [lia|]. exists b'. split_and!; [done..|].
           intros i a Hi Ha Hakey.
           destruct (decide (i = k)) as [->|].
           ++ assert (a = acc) as -> by congruence.
              assert (e' = e) as -> by congruence.
              assert (j' = j) as -> by congruence.
              assert (b' = b) as -> by congruence.
              split; [lia | done].
           ++ apply Hbest'; [lia | done..].
        -- intros e' Hm' i a Hi Ha.
           destruct (decide (i = k)) as [->|].
           ++ assert (a = acc) as -> by congruence. congruence.
           ++ apply (Habs e' Hm' i a); [lia | done].
    + (* first account with this email *)
      split; simpl.
      * intros i. rewrite Hkeep. split.
        -- intros [? ?]. split; [lia | done].
        -- intros [Hi (a & Ha & Hn)]. split; [|eauto].
           destruct (decide (i = k)) as [->|]; [|lia]. congruence.
      * intros e' j'. destruct (decide (e = e')) as [<-|Hne].
        -- rewrite lookup_insert_eq. intros [= <-].
           split; [lia|]. exists acc. split_and!; [done..|].
           intros i a Hi Ha Hakey.
           destruct (decide (i = k)) as [->|].
           ++ assert (a = acc) as -> by congruence.
              split; [lia | apply atLeastAsNew_refl].
           ++ by destruct (Habs e Hm i a ltac:(lia) Ha).
        -- rewrite lookup_insert_ne by done. intros Hm'.
           destruct (Hnew e' j' Hm') as (Hj' & b' & Hb' & Hb'key & Hbest').
           split; [lia|]. exists b'. split_and!; [done..|].
           intros i a Hi Ha Hakey.
           destruct (decide (i = k)) as [->|]; [congruence|].
           apply Hbest'; [lia | done..].
      * intros e'. destruct (decide (e = e')) as [<-|Hne].
        -- by rewrite lookup_insert_eq.
        -- rewrite lookup_insert_ne by done. intros Hm' i a Hi Ha.
           destruct (decide (i = k)) as [->|]; [congruence|].
           apply (Habs e' Hm' i a); [lia | done].
  - (* no email: the position is kept *)
    split; simpl.
    + intros i. rewrite elem_of_union, elem_of_singleton, Hkeep. split.
      * intros [->|[? ?]]; [split; [lia | eauto] | split; [lia | done]].
      * intros [Hi Ha]. destruct (decide (i = k)); [by left | right].
        split; [lia | done].
    + intros e' j' Hm'.
      destruct (Hnew e' j' Hm') as (Hj' & b' & Hb' & Hb'key & Hbest').
      split; [lia|]. exists b'. split_and!; [done..|].
      intros i a Hi Ha Hakey.
      destruct (decide (i = k)) as [->|]; [congruence|].
      apply Hbest'; [lia | done..].
    + intros e' Hm' i a Hi Ha.
      destruct (decide (i = k)) as [->|]; [congruence|].
      apply (Habs e' Hm' i a); [lia | done].
Qed.

Lemma firstPassUpTo_inv accounts k :
  (k ≤ length accounts)%nat →
  FirstPassInv accounts k (firstPassUpTo accounts k).
Proof.
  induction k as [|k IH]; intros Hk.
  - apply firstPassInv_init.
  - unfold firstPassUpTo. rewrite seq_S, foldl_snoc. simpl.
    apply firstPassInv_step; [lia|]. apply IH. lia.
Qed.

Lemma firstPass_inv accounts :
  FirstPassInv accounts (length accounts) (firstPass accounts).
Proof. by apply firstPassUpTo_inv. Qed.

Lemma elem_of_keptIndices accounts i :
  i ∈ keptIndices accounts ↔
  i ∈ indicesToKeep (firstPass accounts) ∨
  ∃ e, emailToNewestIndex (firstPass accounts) !! e = Some i.
Proof.
  unfold keptIndices. revert i.
  apply (map_fold_weak_ind (λ r m, ∀ i,
    i ∈ r ↔ i ∈ indicesToKeep (firstPass accounts) ∨ ∃ e, m !! e = Some i)).
  - intros i. split; [by left|]. intros [?|[e He]]; [done|].
    by rewrite lookup_empty in He.
  - intros e j m r Hfresh IH i.
    rewrite elem_of_union, elem_of_singleton, IH. split.
    + intros [->|[?|[e' He']]].
      * right. exists e. by rewrite lookup_insert_eq.
      * by left.
      * right. exists e'. rewrite lookup_insert_ne; [done|congruence].
    + intros [?|[e' He']]; [by right; left|].
      destruct (decide (e = e')) as [<-|Hne].
      * rewrite lookup_insert_eq in He'. left. congruence.
      * rewrite lookup_insert_ne in He' by done. right; right; eauto.
Qed.

(** An account that is dropped has lost against a kept account with the
    same email. *)
Lemma dropped_is_beaten accounts i a :
  accounts !! i = Some a →
  i ∉ keptIndices accounts →
  ∃ j b e, j ∈ keptIndices accounts ∧ j ≠ i ∧ accounts !! j = Some b ∧
    emailKey a = Some e ∧ emailKey b = Some e ∧
    atLeastAsNew b a ∧ ((i < j)%nat → newer b a).
Proof.
  intros Ha Hdrop.
  destruct (firstPass_inv accounts) as [Hkeep Hnew Habs].
  pose proof (lookup_lt_Some _ _ _ Ha) as Hi.
  destruct (emailKey a) as [e|] eqn:Hkey.
  - destruct (emailToNewestIndex (firstPass accounts) !! e) as [j|] eqn:Hm.
    + destruct (Hnew e j Hm) as (Hj & b & Hb & Hbkey & Hbest).
      assert (j ∈ keptIndices accounts) as Hjk.
      { apply elem_of_keptIndices. right. eauto. }
      destruct (Hbest i a Hi Ha Hkey) as [Hlater Hle].
      exists j, b, e. split_and!; try done.
      by intros ->.
    + by destruct (Habs e Hm i a Hi Ha).
  - destruct Hdrop. apply elem_of_keptIndices. left. apply Hkeep. eauto.
Qed.

Lemma kept_in_range accounts i :
  i ∈ keptIndices accounts → is_Some (accounts !! i).
Proof.
  destruct (firstPass_inv accounts) as [Hkeep Hnew _].
  intros [Hi|[e He]]%elem_of_keptIndices.
  - apply Hkeep in Hi as (_ & a & -> & _). eauto.
  - destruct (Hnew e i He) as (_ & b & -> & _). eauto.
Qed.

(** A kept account with an email is the recorded one for that email. *)
Lemma kept_is_newest accounts i a e :
  i ∈ keptIndices accounts →
  accounts !! i = Some a →
  emailKey a = Some e →
  emailToNewestIndex (firstPass accounts) !! e = Some i.
Proof.
  destruct (firstPass_inv accounts) as [Hkeep Hnew _].
  intros [Hi|[e' He']]%elem_of_keptIndices Ha Hkey.
  - apply Hkeep in Hi as (_ & a' & Ha' & Hnone). congruence.
  - destruct (Hnew e' i He') as (_ & b & Hb & Hbkey & _).
    assert (e' = e) as -> by congruence. done.
Qed.

Lemma kept_is_best accounts i a j b e :
  i ∈ keptIndices accounts →
  accounts !! i = Some a → emailKey a = Some e →
  accounts !! j = Some b → emailKey b = Some e →
  atLeastAsNew a b ∧ (j ∈ keptIndices accounts → j = i).
Proof.
  intros Hi Ha Hakey Hb Hbkey.
  pose proof (kept_is_newest _ _ _ _ Hi Ha Hakey) as Hm.
  destruct (firstPass_inv accounts) as [_ Hnew _].
  destruct (Hnew e i Hm) as (_ & a' & Ha' & _ & Hbest).
  assert (a' = a) as -> by congruence.
  split.
  - apply (Hbest j b); [by eapply lookup_lt_Some | done..].
  - intros Hj. pose proof (kept_is_newest _ _ _ _ Hj Hb Hbkey). congruence.
Qed.

(** The third loop yields the accounts at the kept positions, in order. *)
Lemma collect_from keep (pre rest result : list AccountMetadata) :
  foldl (λ result i,
           if bool_decide (i ∈ keep)
           then match (pre ++ rest) !! i with
                | Some acc => result ++ [acc]
                | None => result
                end
           else result)
        result (seq (length pre) (length rest))
  = result ++ atPositions keep (length pre) rest.
Proof.
  revert pre result. induction rest as [|a rest IH]; intros pre result; simpl.
  - by rewrite app_nil_r.
  - rewrite lookup_app_r, Nat.sub_diag by lia. simpl.
    specialize (IH (pre ++ [a])).
    rewrite length_app, Nat.add_1_r, <-app_assoc in IH. simpl in IH.
    rewrite IH. case_bool_decide; [by rewrite <-app_assoc | done].
Qed.

Lemma collectKept_atPositions accounts keep :
  collectKept accounts keep = atPositions keep 0 accounts.
Proof. apply (collect_from keep [] accounts []). Qed.

Lemma atPositions_sublist {A} keep i (l : list A) :
  atPositions keep i l `sublist_of` l.
Proof.
  revert i. induction l as [|a l IH]; intros i; simpl; [constructor|].
  case_bool_decide; [by apply sublist_skip | by apply sublist_cons].
Qed.

Lemma elem_of_atPositions {A} keep s (l : list A) x :
  x ∈ atPositions keep s l ↔ ∃ i, (s + i)%nat ∈ keep ∧ l !! i = Some x.
Proof.
  revert s. induction l as [|a l IH]; intros s; simpl.
  - split; [by intros ?%elem_of_nil | by intros (i & _ & ?)].
  - assert ((∃ i, (s + i)%nat ∈ keep ∧ (a :: l) !! i = Some x) ↔
            (s ∈ keep ∧ a = x) ∨ ∃ i, (S s + i)%nat ∈ keep ∧ l !! i = Some x) as ->.
    { split.
      - intros ([|i] & Hi & Hx); simpl in *.
        + left. rewrite Nat.add_0_r in Hi. split; congruence.
        + right. exists i. by rewrite Nat.add_succ_r in Hi.
      - intros [[Hs ->]|(i & Hi & Hx)].
        + exists 0%nat. by rewrite Nat.add_0_r.
        + exists (S i). by rewrite Nat.add_succ_r. }
    rewrite <-IH. case_bool_decide as Hs.
    + rewrite elem_of_cons. split.
      * intros [->|?]; [by left | by right].
      * intros [[_ ->]|?]; [by left | by right].
    + split; [by right|]. by intros [[? _]|?].
Qed.

Lemma atPositions_all {A} keep s (l : list A) :
  (∀ i, (i < length l)%nat → (s + i)%nat ∈ keep) →
  atPositions keep s l = l.
Proof.
  revert s. induction l as [|a l IH]; intros s Hall; simpl; [done|].
  rewrite bool_decide_eq_true_2.
  - f_equal. apply IH. intros i Hi.
    replace (S s + i)%nat with (s + S i)%nat by lia. apply Hall. simpl. lia.
  - replace s with (s + 0)%nat by lia. apply Hall. simpl. lia.
Qed.

(** A list in which no email occurs twice is left as it is. *)
Lemma dedup_distinct accounts :
  (∀ i j a b e, accounts !! i = Some a → accounts !! j = Some b →
     emailKey a = Some e → emailKey b = Some e → i = j) →
  deduplicateAccountsByEmail accounts = accounts.
Proof.
  intros Hdistinct. unfold deduplicateAccountsByEmail.
  rewrite collectKept_atPositions. apply atPositions_all. intros i Hi. simpl.
  destruct (lookup_lt_is_Some_2 _ _ Hi) as [a Ha].
  destruct (decide (i ∈ keptIndices accounts)) as [|Hdrop]; [done|].
  destruct (dropped_is_beaten _ _ _ Ha Hdrop) as (j & b & e & _ & Hne & Hb & ? & ? & _).
  destruct Hne. eauto.
Qed.

Lemma omap_emailKey_NoDup keep s (l : list AccountMetadata) :
  (∀ i j a b e, (s + i)%nat ∈ keep → (s + j)%nat ∈ keep →
     l !! i = Some a → l !! j = Some b →
     emailKey a = Some e → emailKey b = Some e → i = j) →
  NoDup (omap emailKey (atPositions keep s l)).
Proof.
  revert s. induction l as [|a l IH]; intros s Hinj; simpl; [constructor|].
  assert (NoDup (omap emailKey (atPositions keep (S s) l))) as Htail.
  { apply IH. intros i j x y e Hi Hj Hx Hy Hxe Hye.
    rewrite Nat.add_succ_l, <-Nat.add_succ_r in Hi, Hj.
    by pose proof (Hinj (S i) (S j) x y e Hi Hj Hx Hy Hxe Hye) as [= ->]. }
  case_bool_decide as Hs; [|done]. simpl.
  destruct (emailKey a) as [e|] eqn:Hkey; [|done].
  constructor; [|done].
  intros (b & (j & Hj & Hb)%elem_of_atPositions & Hbkey)%list_elem_of_omap.
  rewrite Nat.add_succ_l, <-Nat.add_succ_r in Hj.
  rewrite <-(Nat.add_0_r s) in Hs.
  by pose proof (Hinj 0%nat (S j) a b e Hs Hj eq_refl Hb Hkey Hbkey).
Qed.

Lemma NoDup_omap_lookup {A B} (f : A → option B) (l : list A) i j a b y :
  NoDup (omap f l) →
  l !! i = Some a → l !! j = Some b → f a = Some y → f b = Some y → i = j.
Proof.
  revert i j. induction l as [|x l IH]; intros i j Hnd Ha Hb Hfa Hfb; [done|].
  simpl in Hnd.
  assert (∀ k c, l !! k = Some c → f c = Some y → y ∈ omap f l) as Hin.
  { intros k c Hc Hfc. apply list_elem_of_omap. exists c.
    split; [by eapply list_elem_of_lookup_2 | done]. }
  destruct i as [|i], j as [|j]; simpl in *; [done| | |].
  - injection Ha as ->. rewrite Hfa in Hnd. apply NoDup_cons in Hnd as [Hy _].
    destruct Hy. eauto.
  - injection Hb as ->. rewrite Hfb in Hnd. apply NoDup_cons in Hnd as [Hy _].
    destruct Hy. eauto.
  - f_equal. apply IH; try done.
    destruct (f x); [by apply NoDup_cons in Hnd as [_ ?] | done].
Qed.

Lemma dedup_NoDup accounts :
  NoDup (omap emailKey (deduplicateAccountsByEmail accounts)).
Proof.
  unfold deduplicateAccountsByEmail. rewrite collectKept_atPositions.
  apply omap_emailKey_NoDup. simpl. intros i j a b e Hi Hj Ha Hb Hakey Hbkey.
  by destruct (kept_is_best _ _ _ _ _ _ Hj Hb Hbkey Ha Hakey) as [_ ->].
Qed.
End dedup.

(** C1: de-duplication yields the accounts at a set of kept positions, in
    their order. An account is dropped only when another account, which is
    kept, has the same email; and among the accounts with one email exactly
    one is kept, whose lastUsed is the greatest, ties broken by the greatest
    addedAt. The email identity of an account is its non-empty [email]; an
    account without one is never dropped. *)
Theorem dedup_keeps_newest_per_email (accounts : list AccountMetadata) :
  ∃ kept : gset nat,
    deduplicateAccountsByEmail accounts = atPositions kept 0 accounts ∧
    (∀ i a, accounts !! i = Some a → i ∉ kept →
       ∃ j b, j ∈ kept ∧ j ≠ i ∧ accounts !! j = Some b ∧
              is_Some (emailKey a) ∧ emailKey b = emailKey a) ∧
    (∀ i a j b, i ∈ kept → accounts !! i = Some a → accounts !! j = Some b →
       is_Some (emailKey a) → emailKey b = emailKey a →
       atLeastAsNew a b ∧ (j ∈ kept → j = i)).
Proof.
  exists (keptIndices accounts). split_and!.
  - apply collectKept_atPositions.
  - intros i a Ha Hdrop.
    destruct (dropped_is_beaten _ _ _ Ha Hdrop) as (j & b & e & ? & ? & ? & Hk & ? & _).
    exists j, b. rewrite Hk. split_and!; eauto.
  - intros i a j b Hi Ha Hb [e Hkey] Hsame. rewrite Hkey in Hsame.
    by eapply kept_is_best.
Qed.

(** C9: de-duplication applied to its own result changes nothing, and its
    result is a subsequence of the list it was given. *)
Theorem dedup_idempotent_and_order_preserving (accounts : list AccountMetadata) :
  deduplicateAccountsByEmail (deduplicateAccountsByEmail accounts)
    = deduplicateAccountsByEmail accounts ∧
  deduplicateAccountsByEmail accounts `sublist_of` accounts.
Proof.
  split.
  - apply dedup_distinct. intros i j a b e Ha Hb Hakey Hbkey.
    eapply NoDup_omap_lookup; eauto using dedup_NoDup.
  - unfold deduplicateAccountsByEmail. rewrite collectKept_atPositions.
    apply atPositions_sublist.
Qed.

(** ** Migration and loading *)

Section loading.
Implicit Types (env : Env) (st : IoState) (storage : ParsedStorage).





Lemma mapFrom_null(clk : nat → Z) s (l : list (Raw AccountMetadataV1)) :
  RawNull ∈ l →
  mapFrom (λ i r, migrateRaw (clk i) r) s l = Throw TypeError.
Proof.
  revert s. induction l as [|r l IH]; intros s Hnull; simpl.
  - by apply elem_of_nil in Hnull.
  - destruct r; simpl; [done| |].
    + apply elem_of_cons in Hnull as [?|Hl]; [done|]. by rewrite (IH _ Hl).
    + apply elem_of_cons in Hnull as [?|Hl]; [done|]. by rewrite (IH _ Hl).
Qed.

(** What a call of [loadAccounts] amounts to, by the state of the file. *)
Lemma loadAccounts_version2 env st storage :
  file env = Json (DataVersion2 storage) →
  loadAccounts env st = (Return (Some (finishLoad storage)), st).
Proof.
  intros Hfile. unfold loadAccounts, tryCatch, loadAccountsTry, readAndParse.
  by rewrite Hfile.
Qed.


Lemma loadAccounts_Some env st s st' :
  loadAccounts env st = (Return (Some s), st') →
  ∃ storage, s = finishLoad storage ∧
    (file env = Json (DataVersion2 storage) ∨
     ∃ v1, file env = Json (DataVersion1 v1) ∧
           migrateV1ToV2 (clock env) v1 = Return storage).
Proof.
  unfold loadAccounts, tryCatch, loadAccountsTry, readAndParse, saveAccounts.
  destruct (file env) as [e| |[| |v1|storage|]] eqn:Hfile;
    unfold mbind, M_bind, mret, M_ret, log, lift, throw; simpl;
    try (case_bool_decide; simpl; by intros [=]); try by intros [=].
  - destruct (migrateV1ToV2 (clock env) v1) as [storage|e] eqn:Hmig; simpl.
    + destruct (saveError env); simpl; intros [= <- <-]; eauto 10.
    + case_bool_decide; simpl; by intros [=].
  - intros [= <- <-]. eauto.
Qed.

Lemma clampActiveIndex_range stored len :
  (len ≠ 0%nat → 0 ≤ clampActiveIndex stored len < Z.of_nat len) ∧
  (len = 0%nat → clampActiveIndex stored len = 0).
Proof.
  unfold clampActiveIndex. destruct (Z.ltb_spec 0 (Z.of_nat len)); split; lia.
Qed.

Lemma validAccounts_app l1 l2 :
  validAccounts (l1 ++ l2) = validAccounts l1 ++ validAccounts l2.
Proof. apply omap_app. Qed.

Lemma elem_of_validAccounts l b :
  b ∈ validAccounts l ↔ RawAccount b ∈ l.
Proof.
  unfold validAccounts. rewrite list_elem_of_omap. split.
  - intros ([]&?&?); simplify_eq/=. done.
  - intros ?. by exists (RawAccount b).
Qed.

(** An account of the list is in the result of de-duplication unless an
    account with its email before it is at least as new, or one after it
    is newer. *)
Lemma dedup_keeps_unless_beaten (l1 l2 : list AccountMetadata) a :
  a ∈ deduplicateAccountsByEmail (l1 ++ a :: l2) ∨
  (∃ b, b ∈ l1 ∧ is_Some (emailKey a) ∧ emailKey b = emailKey a ∧ atLeastAsNew b a) ∨
  (∃ b, b ∈ l2 ∧ is_Some (emailKey a) ∧ emailKey b = emailKey a ∧ newer b a).
Proof.
  set (l := l1 ++ a :: l2).
  assert (l !! length l1 = Some a) as Ha by apply list_lookup_middle, eq_refl.
  destruct (decide (length l1 ∈ keptIndices l)) as [Hin|Hdrop].
  - left. unfold deduplicateAccountsByEmail.
    rewrite collectKept_atPositions. apply elem_of_atPositions. eauto.
  - right.
    destruct (dropped_is_beaten _ _ _ Ha Hdrop)
      as (j & b & e & _ & Hne & Hb & Hakey & Hbkey & Hle & Hlt).
    destruct (decide (j < length l1)%nat) as [Hj|Hj].
    + left. exists b. subst l. rewrite lookup_app_l in Hb by done.
      split_and!; [by eapply list_elem_of_lookup_2 | eauto | congruence | done].
    + right. exists b. subst l.
      rewrite lookup_app_r in Hb by lia.
      destruct (j - length l1)%nat as [|n] eqn:Hn; [lia|]. simpl in Hb.
      split_and!; [by eapply list_elem_of_lookup_2 | eauto | congruence |].
      apply Hlt. lia.
Qed.
End loading.

(** Of three accounts of one email the newest by lastUsed is kept, a tie in
    lastUsed being decided by addedAt; the order of the kept accounts is
    that of the list. *)
Example dedup_sample :
  refreshToken <$> deduplicateAccountsByEmail
    [mkAccountMetadata (Some "a@x") "1" None None 1 5 None None;
     mkAccountMetadata (Some "b@x") "2" None None 1 5 None None;
     mkAccountMetadata (Some "a@x") "3" None None 2 5 None None;
     mkAccountMetadata None "4" None None 0 0 None None;
     mkAccountMetadata (Some "b@x") "5" None None 9 4 None None;
     mkAccountMetadata (Some "a@x") "6" None None 2 5 None None]
  = ["2"; "3"; "4"].
Proof. vm_compute. reflexivity. Qed.

(** Accounts whose email is the empty string are all kept: the empty string
    counts as no email. *)
Example dedup_empty_email :
  deduplicateAccountsByEmail
    [mkAccountMetadata (Some "") "t1" None None 1 1 None None;
     mkAccountMetadata (Some "") "t2" None None 2 2 None None]
  = [mkAccountMetadata (Some "") "t1" None None 1 1 None None;
     mkAccountMetadata (Some "") "t2" None None 2 2 None None].
Proof. vm_compute. reflexivity. Qed.

(** C2, as stated, fails: for a stored list without accounts the returned
    active index is 0, which does not lie in the empty range. *)
Lemma active_index_of_empty_list :
  ∃ s st',
    loadAccounts (env_of (DataVersion2 (mkParsedStorage [] (Some 0)))) quiet
      = (Return (Some s), st') ∧
    accounts s = [] ∧ activeIndex s = 0 ∧
    ¬ (0 ≤ activeIndex s < Z.of_nat (length (accounts s))).
Proof.
  eexists _, _. split; [reflexivity|]. split_and!; [done..|]. simpl. lia.
Qed.

(** C2, amended: whenever [loadAccounts] returns a storage, its active index
    lies in [0, number of accounts) if there is an account, and is 0 if
    there is none. *)
Theorem active_index_in_range (env : Env) (st st' : IoState) (s : AccountStorage) :
  loadAccounts env st = (Return (Some s), st') →
  (accounts s ≠ [] → 0 ≤ activeIndex s < Z.of_nat (length (accounts s))) ∧
  (accounts s = [] → activeIndex s = 0).
Proof.
  intros (storage & -> & _)%loadAccounts_Some. unfold finishLoad. simpl.
  set (kept := deduplicateAccountsByEmail _).
  destruct (clampActiveIndex_range (parsed_activeIndex storage) (length kept))
    as [Hin Hout].
  split; intros Hkept.
  - apply Hin. by destruct kept.
  - apply Hout. by rewrite Hkept.
Qed.

Lemma active_index_in_range_witness :
  let storage := mkParsedStorage [RawAccount alice_old; RawOther; RawAccount bob] (Some 7) in
  loadAccounts (env_of (DataVersion2 storage)) quiet
    = (Return (Some (finishLoad storage)), quiet) ∧
  ((accounts (finishLoad storage) ≠ [] →
    0 ≤ activeIndex (finishLoad storage)
      < Z.of_nat (length (accounts (finishLoad storage)))) ∧
   (accounts (finishLoad storage) = [] → activeIndex (finishLoad storage) = 0)).
Proof.
  intros storage. split; [reflexivity|].
  apply (active_index_in_range (env_of (DataVersion2 storage)) quiet quiet).
  reflexivity.
Defined.

(** The migrated form of the sample account keeps its reset time. *)
Example migrate_limited :
  migrateAccount 1000 limited_v1
  = mkAccountMetadata (Some "carol@example.com") "token-4" None None 300 800
      (Some RateLimit) (Some (mkRateLimitState (Some 5000) (Some 5000))).
Proof. reflexivity. Qed.

(** A version-1 file with a null entry is not migrated: the callback fails,
    the failure is logged as an error and nothing is returned. *)
Example load_v1_with_null_entry :
  loadAccounts
    (env_of (DataVersion1 (mkAccountStorageV1 [RawAccount limited_v1; RawNull] (Some 0))))
    quiet
  = (Return None,
     mkIoState
       [mkLogLine LogInfo "[opencode-antigravity-auth] Migrating account storage from v1 to v2";
        mkLogLine LogError "[opencode-antigravity-auth] Failed to load account storage:"]
       []).
Proof. reflexivity. Qed.


(** C4, as stated, fails: of two records with one email and equal lastUsed
    and addedAt the second is dropped although no record is newer. *)
Lemma load_drops_record_on_tie :
  ∃ s st',
    loadAccounts
      (env_of (DataVersion2
         (mkParsedStorage [RawAccount alice_old; RawAccount alice_twin] (Some 0))))
      quiet = (Return (Some s), st') ∧
    accounts s = [alice_old] ∧
    (alice_twin ∉ accounts s) ∧
    ¬ newer alice_old alice_twin.
Proof.
  eexists _, _. split; [vm_compute; reflexivity|]. split_and!.
  - reflexivity.
  - intros Hin. apply list_elem_of_singleton in Hin. discriminate.
  - unfold newer. simpl. lia.
Qed.

(** C4, amended: a record of the stored list that passes the validation (for
    a version-1 file, in its migrated form) is in the returned list unless a
    record with the same email is newer by lastUsed, then addedAt, or is
    equally new and stands before it. *)
Theorem load_keeps_unless_beaten (env : Env) (st st' : IoState) (s : AccountStorage) :
  loadAccounts env st = (Return (Some s), st') →
  ∃ storage,
    (file env = Json (DataVersion2 storage) ∨
     ∃ v1, file env = Json (DataVersion1 v1) ∧
           migrateV1ToV2 (clock env) v1 = Return storage) ∧
    ∀ l1 a l2, parsed_accounts storage = l1 ++ RawAccount a :: l2 →
      a ∈ accounts s ∨
      (∃ b, RawAccount b ∈ l1 ∧ is_Some (emailKey a) ∧
            emailKey b = emailKey a ∧ atLeastAsNew b a) ∨
      (∃ b, RawAccount b ∈ l2 ∧ is_Some (emailKey a) ∧
            emailKey b = emailKey a ∧ newer b a).
Proof.
  intros (storage & -> & Hfile)%loadAccounts_Some.
  exists storage. split; [done|]. intros l1 a l2 Hstored.
  unfold finishLoad. simpl. rewrite Hstored, validAccounts_app. simpl.
  fold (validAccounts l2).
  destruct (dedup_keeps_unless_beaten (validAccounts l1) (validAccounts l2) a)
    as [?|[(b & Hb & ?)|(b & Hb & ?)]]; [by left|right; left|right; right];
    exists b; (split; [by apply elem_of_validAccounts | done]).
Qed.

Lemma load_keeps_unless_beaten_witness :
  let storage := mkParsedStorage [RawAccount alice_old; RawNull; RawAccount bob] None in
  let env := env_of (DataVersion2 storage) in
  loadAccounts env quiet = (Return (Some (finishLoad storage)), quiet) ∧
  ∃ storage',
    (file env = Json (DataVersion2 storage') ∨
     ∃ v1, file env = Json (DataVersion1 v1) ∧
           migrateV1ToV2 (clock env) v1 = Return storage') ∧
    ∀ l1 a l2, parsed_accounts storage' = l1 ++ RawAccount a :: l2 →
      a ∈ accounts (finishLoad storage) ∨
      (∃ b, RawAccount b ∈ l1 ∧ is_Some (emailKey a) ∧
            emailKey b = emailKey a ∧ atLeastAsNew b a) ∨
      (∃ b, RawAccount b ∈ l2 ∧ is_Some (emailKey a) ∧
            emailKey b = emailKey a ∧ newer b a).
Proof.
  intros storage env. split; [reflexivity|].
  apply (load_keeps_unless_beaten env quiet quiet). reflexivity.
Defined.

(** C10: for every state of the file and of the surroundings [loadAccounts]
    returns, without raising anything, either nothing or a storage of
    version 2; it returns nothing when the file cannot be read or parsed,
    when the parsed value is null, has no array of accounts or has another
    version; and for a missing file it returns nothing and leaves the
    console as it was. *)
Theorem loadAccounts_total (env : Env) (st : IoState) :
  ∃ r st',
    loadAccounts env st = (Return r, st') ∧
    (∀ s, r = Some s → version s = 2) ∧
    (∀ storage, file env = Json (DataVersion2 storage) →
       r = Some (finishLoad storage)) ∧
    ((∃ e, file env = ReadFails e) ∨ file env = NotJson ∨
     file env = Json DataNull ∨ file env = Json DataNoArray ∨
     file env = Json DataOtherVersion → r = None) ∧
    (file env = ReadFails (SystemError "ENOENT") → r = None ∧ st' = st).
Proof.
  unfold loadAccounts, tryCatch, loadAccountsTry, readAndParse, saveAccounts.
  destruct (file env) as [e| |[| |v1|storage|]] eqn:Hfile;
    unfold mbind, M_bind, mret, M_ret, log, lift, throw; simpl.
  - case_bool_decide as Hcode; simpl; eexists _, _; (split; [reflexivity|]);
      split_and!; try done.
    intros [= ->]. by destruct Hcode.
  - eexists _, _; (split; [reflexivity|]); split_and!; try done.
  - eexists _, _; (split; [reflexivity|]); split_and!; try done.
  - eexists _, _; (split; [reflexivity|]); split_and!; try done.
  - destruct (migrateV1ToV2 (clock env) v1) as [storage|e]; simpl.
    + destruct (saveError env); simpl; eexists _, _; (split; [reflexivity|]);
        split_and!; try done; try (by intros s [= <-]);
        intros [[? ?]|[?|[?|[?|?]]]]; done.
    + case_bool_decide; simpl; eexists _, _; (split; [reflexivity|]);
        split_and!; try done.
  - eexists _, _; (split; [reflexivity|]); split_and!; try done.
    + by intros s [= <-].
    + by intros ? [= <-].
    + intros [[? ?]|[?|[?|[?|?]]]]; done.
  - eexists _, _; (split; [reflexivity|]); split_and!; try done.
Qed.

(** ** Schema sanitizer *)

Section sanitizer.
Implicit Types (o ps : gmap string json) (s t v : json) (k : string).

Lemma jsize_member o k v : o !! k = Some v → (jsize v < jsize (JObj o))%nat.
Proof.
  intros Hk. simpl.
  rewrite (map_fold_delete_L _ _ k v o); [lia| |done].
  intros. lia.
Qed.

Lemma json_size_ind (P : json → Prop) :
  (∀ s, (∀ t, (jsize t < jsize s)%nat → P t) → P s) → ∀ s, P s.
Proof.
  intros Hstep s. remember (jsize s) as n eqn:Hn.
  revert s Hn. induction (lt_wf n) as [n _ IH]. intros s ->.
  apply Hstep. intros t Ht. by apply (IH (jsize t)).
Qed.

Lemma sanitizeSchema_obj o :
  sanitizeSchema (JObj o) =
  JObj (injectPlaceholder
          (dropUnsupported (rewriteConst (map_imap (nestedStep sanitizeSchema) o)))).
Proof. reflexivity. Qed.

Lemma sanitizeSchema_other s :
  (∀ o, s ≠ JObj o) → sanitizeSchema s = placeholderSchema.
Proof. intros Hs. destruct s; try done. by destruct (Hs o). Qed.

(** Lookups through the stages. *)
Lemma lookup_dropUnsupported o k :
  dropUnsupported o !! k = if bool_decide (k ∈ allowedKeys) then o !! k else None.
Proof.
  unfold dropUnsupported. rewrite map_lookup_filter.
  destruct (o !! k) as [v|]; simpl; [|by case_bool_decide].
  case_bool_decide.
  - by rewrite option_guard_True.
  - by rewrite option_guard_False.
Qed.



Lemma lookup_rewriteConst_ne o k :
  k ≠ "const" → k ≠ "enum" → rewriteConst o !! k = o !! k.
Proof.
  intros ? ?. unfold rewriteConst. destruct (o !! "const"); [|done].
  rewrite lookup_insert_ne by done. by apply lookup_delete_ne.
Qed.

Lemma lookup_injectPlaceholder_ne o k :
  k ≠ "properties" → k ≠ "required" →
  injectPlaceholder o !! k = o !! k.
Proof.
  intros ? ?. unfold injectPlaceholder.
  destruct (isObjectType o && hasNoProperties o); [|done].
  by rewrite !lookup_insert_ne.
Qed.

Lemma lookup_injectPlaceholder_properties o :
  injectPlaceholder o !! "properties" =
  if isObjectType o && hasNoProperties o
  then Some (JObj placeholderProperties) else o !! "properties".
Proof.
  unfold injectPlaceholder.
  destruct (isObjectType o && hasNoProperties o); [|done].
  rewrite lookup_insert_ne by done. apply lookup_insert_eq.
Qed.

Lemma allowed_in k :
  k ∈ allowedKeys ↔
  k = "type" ∨ k = "properties" ∨ k = "required" ∨ k = "description" ∨
  k = "enum" ∨ k = "items" ∨ k = "additionalProperties".
Proof. unfold allowedKeys. rewrite !elem_of_cons, elem_of_nil. tauto. Qed.

Lemma lookup_staged_properties o :
  staged o !! "properties" =
  match o !! "properties" with
  | Some (JObj ps) => Some (JObj (sanitizeSchema <$> ps))
  | _ => None
  end.
Proof.
  unfold staged. rewrite lookup_dropUnsupported, bool_decide_eq_true_2
    by (apply allowed_in; tauto).
  rewrite lookup_rewriteConst_ne, map_lookup_imap by done.
  destruct (o !! "properties") as [[]|]; done.
Qed.

Lemma lookup_staged_items o :
  staged o !! "items" = (λ v, fixEmptyItems (sanitizeSchema v)) <$> o !! "items".
Proof.
  unfold staged. rewrite lookup_dropUnsupported, bool_decide_eq_true_2
    by (apply allowed_in; tauto).
  rewrite lookup_rewriteConst_ne, map_lookup_imap by done.
  by destruct (o !! "items").
Qed.



Lemma staged_allowed o k : is_Some (staged o !! k) → k ∈ allowedKeys.
Proof.
  unfold staged. rewrite lookup_dropUnsupported.
  case_bool_decide; [done | by intros [? ?]].
Qed.
Lemma sanitizeSchema_staged o :
  sanitizeSchema (JObj o) = JObj (injectPlaceholder (staged o)).
Proof. reflexivity. Qed.

Lemma clean_fixed o : Clean o → sanitizeSchema (JObj o) = JObj o.
Proof.
  intros [Hkeys Hprops Hitems Hph]. rewrite sanitizeSchema_obj. f_equal.
  assert (map_imap (nestedStep sanitizeSchema) o = o) as ->.
  { apply map_eq. intros k. rewrite map_lookup_imap.
    destruct (o !! k) as [v|] eqn:Hk; [simpl|done]. unfold nestedStep.
    destruct (decide (k = "properties")) as [->|].
    - destruct (Hprops v Hk) as (ps & -> & ->). done.
    - destruct (decide (k = "items")) as [->|]; [|done].
      by rewrite (Hitems v Hk). }
  assert (rewriteConst o = o) as ->.
  { unfold rewriteConst. destruct (o !! "const") eqn:Hc; [|done].
    assert ("const" ∈ allowedKeys) as Hin by (apply Hkeys; eauto).
    apply allowed_in in Hin. by repeat destruct Hin as [?|Hin]. }
  assert (dropUnsupported o = o) as ->.
  { apply map_filter_id. intros k v Hk. apply Hkeys. eauto. }
  unfold injectPlaceholder. by rewrite Hph.
Qed.

Lemma reasonProperty_fixed : sanitizeSchema reasonProperty = reasonProperty.
Proof. vm_compute. reflexivity. Qed.

Lemma placeholderSchema_fixed : sanitizeSchema placeholderSchema = placeholderSchema.
Proof. vm_compute. reflexivity. Qed.

Lemma stringItems_fixed :
  fixEmptyItems (sanitizeSchema (JObj {[ "type" := JStr "string" ]}))
  = JObj {[ "type" := JStr "string" ]}.
Proof. vm_compute. reflexivity. Qed.

Lemma placeholderProperties_fixed :
  sanitizeSchema <$> placeholderProperties = placeholderProperties.
Proof.
  unfold placeholderProperties.
  by rewrite map_fmap_singleton, reasonProperty_fixed.
Qed.

Lemma fixEmptyItems_fixed v :
  sanitizeSchema v = v →
  fixEmptyItems (sanitizeSchema (fixEmptyItems v)) = fixEmptyItems v.
Proof.
  intros Hv. destruct v as [| | | | |o]; try discriminate Hv.
  unfold fixEmptyItems at 2 3.
  destruct (size o =? 0)%nat eqn:Hsize.
  - apply stringItems_fixed.
  - rewrite Hv. unfold fixEmptyItems. by rewrite Hsize.
Qed.

Lemma hasNoProperties_placeholder o :
  hasNoProperties
    (<["required" := addReason (o !! "required")]>
       (<["properties" := JObj placeholderProperties]> o)) = false.
Proof.
  unfold hasNoProperties.
  rewrite lookup_insert_ne by done. by rewrite lookup_insert_eq.
Qed.

(** The result of sanitizing an object is clean when the schemas nested
    in it are sanitized to fixed points. *)
Lemma sanitized_clean o :
  (∀ t, (jsize t < jsize (JObj o))%nat →
     sanitizeSchema (sanitizeSchema t) = sanitizeSchema t) →
  Clean (injectPlaceholder (staged o)).
Proof.
  intros IH. split.
  - intros k Hk. unfold injectPlaceholder in Hk.
    destruct (isObjectType (staged o) && hasNoProperties (staged o)).
    + destruct (decide (k = "required")) as [->|]; [apply allowed_in; tauto|].
      destruct (decide (k = "properties")) as [->|]; [apply allowed_in; tauto|].
      rewrite !lookup_insert_ne in Hk by done. by apply (staged_allowed o).
    + by apply (staged_allowed o).
  - intros v. rewrite lookup_injectPlaceholder_properties.
    destruct (isObjectType (staged o) && hasNoProperties (staged o)).
    + intros [= <-]. eauto using placeholderProperties_fixed.
    + rewrite lookup_staged_properties.
      destruct (o !! "properties") as [[| | | | |ps]|] eqn:Hps; try done.
      intros [= <-]. eexists. split; [done|].
      rewrite <-map_fmap_compose. apply map_fmap_ext. intros n t Ht. simpl.
      apply IH. etrans; [by eapply jsize_member|].
      by eapply (jsize_member o "properties").
  - intros v. rewrite lookup_injectPlaceholder_ne by done.
    rewrite lookup_staged_items.
    destruct (o !! "items") as [t|] eqn:Ht; [simpl|done]. intros [= <-].
    apply fixEmptyItems_fixed, IH. by eapply jsize_member.
  - unfold injectPlaceholder.
    destruct (isObjectType (staged o) && hasNoProperties (staged o)) eqn:Hph;
      [|done].
    by rewrite hasNoProperties_placeholder, andb_false_r.
Qed.

Lemma sanitizeSchema_idempotent s :
  sanitizeSchema (sanitizeSchema s) = sanitizeSchema s.
Proof.
  induction s as [s IH] using json_size_ind.
  destruct s as [| | | | |o]; try apply placeholderSchema_fixed.
  rewrite sanitizeSchema_staged. by apply clean_fixed, sanitized_clean.
Qed.

Lemma sanitizeChar_idempotent c : sanitizeChar (sanitizeChar c) = sanitizeChar c.
Proof.
  unfold sanitizeChar. destruct (isNameChar c) eqn:Hc; [by rewrite Hc | done].
Qed.

Lemma sanitizeName_idempotent name :
  sanitizeName (sanitizeName name) = sanitizeName name.
Proof.
  unfold sanitizeName. rewrite list_ascii_of_string_of_list_ascii.
  f_equal. rewrite <-!fmap_take, <-list_fmap_compose, take_take, Nat.min_id.
  apply list_fmap_ext. intros _ c _. apply sanitizeChar_idempotent.
Qed.






End sanitizer.




(** C5: sanitizing the result of the sanitizer gives that result again, for
    schemas and for tool and function names. *)
Theorem sanitizer_idempotent (s : json) (name : string) :
  sanitizeSchema (sanitizeSchema s) = sanitizeSchema s ∧
  sanitizeName (sanitizeName name) = sanitizeName name.
Proof. split; [apply sanitizeSchema_idempotent | apply sanitizeName_idempotent]. Qed.

(** ** Thinking blocks at the end of a turn *)

Section thinking.
Implicit Types (l pre : list Block) (b : Block).

Lemma popTrailing_nil fuel : popTrailing fuel [] = [].
Proof. by destruct fuel. Qed.

Lemma popTrailing_snoc fuel l b :
  popTrailing (S fuel) (l ++ [b]) =
  if isUnsignedThinking b then popTrailing fuel l else l ++ [b].
Proof. simpl. by rewrite last_snoc, removelast_last. Qed.

Lemma remove_snoc l b :
  removeTrailingThinkingBlocks (l ++ [b]) =
  if isUnsignedThinking b then removeTrailingThinkingBlocks l else l ++ [b].
Proof.
  unfold removeTrailingThinkingBlocks.
  rewrite length_app, Nat.add_1_r. apply popTrailing_snoc.
Qed.

(** What is removed is a run of unsigned thinking blocks at the end. *)
Lemma remove_split l :
  ∃ removed, l = removeTrailingThinkingBlocks l ++ removed ∧
             Forall (λ b, isUnsignedThinking b = true) removed.
Proof.
  induction l as [|b l IH] using rev_ind.
  - exists []. by split.
  - rewrite remove_snoc. destruct (isUnsignedThinking b) eqn:Hb.
    + destruct IH as (removed & Hl & Hall). exists (removed ++ [b]). split.
      * by rewrite app_assoc, <-Hl.
      * apply Forall_app. split; [done|]. by constructor.
    + exists []. split; [by rewrite app_nil_r | constructor].
Qed.

(** The loop stops at a block that it does not remove. *)
Lemma remove_last l b :
  last (removeTrailingThinkingBlocks l) = Some b → isUnsignedThinking b = false.
Proof.
  induction l as [|x l IH] using rev_ind; [done|].
  rewrite remove_snoc. destruct (isUnsignedThinking x) eqn:Hx; [done|].
  rewrite last_snoc. by intros [= <-].
Qed.

Lemma hasValidSignature_spec text signature :
  hasValidSignature (Thinking text signature) = true ↔
  ∃ sig, signature = Some sig ∧ (50 ≤ String.length sig)%nat.
Proof.
  unfold hasValidSignature. destruct signature as [sig|].
  - rewrite Nat.leb_le. split; [eauto|]. by intros (? & [= <-] & ?).
  - split; [done | by intros (? & ? & _)].
Qed.

Lemma remove_keeps_other l i b :
  l !! i = Some b → isThinking b = false →
  removeTrailingThinkingBlocks l !! i = Some b.
Proof.
  intros Hi Hb. destruct (remove_split l) as (removed & Hl & Hall).
  rewrite Hl in Hi. apply lookup_app_Some in Hi as [Hi|[_ Hi]]; [done|].
  apply list_elem_of_lookup_2 in Hi.
  rewrite Forall_forall in Hall. apply Hall in Hi.
  unfold isUnsignedThinking in Hi. by rewrite Hb in Hi.
Qed.
End thinking.

(** C8: in a turn of the assistant that ends in a thinking block, that block
    stays when it carries a valid signature and goes when it does not, the
    result then being an initial part of the blocks before it that does not
    end in an unsigned thinking block; a signature is valid exactly when it
    is a string of at least 50 characters; and every block that is not a
    thinking block keeps its position. *)
Theorem trailing_thinking_removed_unless_signed
    (pre : list Block) (text : string) (signature : option string) :
  let trailing := Thinking text signature in
  let turn := mkTurn Assistant (pre ++ [trailing]) in
  let valid := ∃ sig, signature = Some sig ∧ (50 ≤ String.length sig)%nat in
  (hasValidSignature trailing = true ↔ valid) ∧
  (valid → blocks (filterTurn turn) = pre ++ [trailing]) ∧
  (¬ valid → blocks (filterTurn turn) `prefix_of` pre) ∧
  (∀ b, last (blocks (filterTurn turn)) = Some b →
        isThinking b = true → hasValidSignature b = true) ∧
  (∀ i b, blocks turn !! i = Some b → isThinking b = false →
          blocks (filterTurn turn) !! i = Some b).
Proof.
  intros trailing turn valid. simpl.
  pose proof (hasValidSignature_spec text signature) as Hvalid.
  split_and!.
  - done.
  - intros Hv%Hvalid. rewrite remove_snoc.
    unfold isUnsignedThinking, trailing. by rewrite Hv.
  - intros Hv. rewrite remove_snoc.
    assert (hasValidSignature trailing = false) as Hf.
    { destruct (hasValidSignature trailing) eqn:Hh; [|done]. by apply Hvalid in Hh. }
    unfold isUnsignedThinking. rewrite Hf. simpl.
    destruct (remove_split pre) as (removed & Hpre & _).
    exists removed. done.
  - intros b Hlast Hthinking. apply remove_last in Hlast.
    unfold isUnsignedThinking in Hlast. rewrite Hthinking in Hlast.
    by destruct (hasValidSignature b).
  - apply remove_keeps_other.
Qed.

(** A turn that ends in two unsigned thinking blocks loses both. *)
Example remove_two_trailing :
  removeTrailingThinkingBlocks
    [Text "answer"; Thinking "first" None; Thinking "second" (Some "short")]
  = [Text "answer"].
Proof. reflexivity. Qed.

(** ** Signature cache *)

Section cache.
Implicit Types (c : gmap CacheKey CacheEntry) (k : CacheKey) (ops : list CacheOp).

Lemma older_fold_None l : foldr older None l = None → l = [].
Proof. destruct l as [|x l]; [done|]. simpl. unfold older. by repeat case_match. Qed.

Lemma older_fold_Some l x :
  foldr older None l = Some x →
  x ∈ l ∧ ∀ y, y ∈ l → expiresAt x.2 ≤ expiresAt y.2.
Proof.
  revert x. induction l as [|a l IH]; intros x; [done|]. simpl.
  destruct (foldr older None l) as [y|] eqn:Hfold; simpl.
  - destruct (IH y eq_refl) as [Hy Hmin].
    destruct (Z.ltb_spec (expiresAt a.2) (expiresAt y.2)); intros [= <-].
    + split; [by left|]. intros z [->|Hz]%elem_of_cons; [lia|].
      specialize (Hmin z Hz). lia.
    + split; [by right|]. intros z [->|Hz]%elem_of_cons; [lia|].
      by apply Hmin.
  - apply older_fold_None in Hfold as ->. intros [= <-].
    split; [by left|]. intros z [->|Hz]%elem_of_cons; [lia|].
    by apply elem_of_nil in Hz.
Qed.

Lemma oldestEntry_spec c ko eo :
  oldestEntry c = Some (ko, eo) →
  c !! ko = Some eo ∧ ∀ k e, c !! k = Some e → expiresAt eo ≤ expiresAt e.
Proof.
  intros [Hin Hmin]%older_fold_Some. split.
  - by apply elem_of_map_to_list.
  - intros k e Hk. apply (Hmin (k, e)). by apply elem_of_map_to_list.
Qed.

Lemma oldestEntry_None c : oldestEntry c = None → c = ∅.
Proof. intros ?%older_fold_None. by apply map_to_list_empty_iff. Qed.

Lemma lookup_sessionEntries session c k e :
  sessionEntries session c !! k = Some e ↔ c !! k = Some e ∧ sessionOf k = session.
Proof. unfold sessionEntries. by rewrite map_lookup_filter_Some. Qed.

(** Whatever an insertion does, an entry of the result is the entry just
    inserted or an entry that was there. *)
Lemma lookup_cacheSet now k v c k' e :
  cacheSet now k v c !! k' = Some e →
  (k' = k ∧ e = mkCacheEntry v (now + CACHE_TTL_MS)) ∨ c !! k' = Some e.
Proof.
  unfold cacheSet. intros Hk'.
  assert (∀ c', (∀ e', c' !! k' = Some e' → c !! k' = Some e') →
            <[k := mkCacheEntry v (now + CACHE_TTL_MS)]> c' !! k' = Some e →
            (k' = k ∧ e = mkCacheEntry v (now + CACHE_TTL_MS)) ∨ c !! k' = Some e)
    as Hins.
  { intros c' Hc'. destruct (decide (k = k')) as [->|].
    - rewrite lookup_insert_eq. intros [= <-]. by left.
    - rewrite lookup_insert_ne by done. intros ?. right. by apply Hc'. }
  destruct (c !! k) eqn:Hk; [by apply (Hins c)|].
  case_bool_decide; [by apply (Hins c)|].
  destruct (oldestEntry _) as [[ko eo]|]; [|by apply (Hins c)].
  apply (Hins (delete ko c)); [|done].
  intros e'. rewrite lookup_delete_Some. by intros [_ ?].
Qed.

(** Every entry of the cache was inserted by an operation of its history
    and expires one hour after that insertion. *)
Lemma runCache_entries ops k e :
  runCache ops !! k = Some e →
  ∃ t, OpSet t k (entry_value e) ∈ ops ∧ expiresAt e = t + CACHE_TTL_MS.
Proof.
  unfold runCache. revert k e.
  induction ops as [|op ops IH] using rev_ind; intros k e.
  - simpl. by rewrite lookup_empty.
  - rewrite foldl_snoc. destruct op as [now k' v|k']; simpl.
    + intros [[-> ->]|Hold]%lookup_cacheSet.
      * exists now. split; [|done]. apply elem_of_app. right. by left.
      * destruct (IH k e Hold) as (t & Hin & Ht). exists t.
        split; [|done]. apply elem_of_app. by left.
    + unfold cacheDelete. rewrite lookup_delete_Some. intros [_ Hold].
      destruct (IH k e Hold) as (t & Hin & Ht). exists t.
      split; [|done]. apply elem_of_app. by left.
Qed.

Lemma cacheGet_fresh ops now k v :
  cacheGet now k (runCache ops) = Some v →
  ∃ t, OpSet t k v ∈ ops ∧ now - t < CACHE_TTL_MS.
Proof.
  unfold cacheGet. destruct (runCache ops !! k) as [e|] eqn:Hk; [|done].
  destruct (Z.ltb_spec now (expiresAt e)); [|done]. intros [= <-].
  destruct (runCache_entries ops k e Hk) as (t & Hin & Ht).
  exists t. split; [done | lia].
Qed.

(** An insertion under a new key into a full session. *)
Lemma cacheSet_full now k v c :
  c !! k = None →
  size (sessionEntries (sessionOf k) c) = MAX_ENTRIES_PER_SESSION →
  ∃ ko eo,
    c !! ko = Some eo ∧ sessionOf ko = sessionOf k ∧
    (∀ k' e', c !! k' = Some e' → sessionOf k' = sessionOf k →
              expiresAt eo ≤ expiresAt e') ∧
    cacheSet now k v c = <[k := mkCacheEntry v (now + CACHE_TTL_MS)]> (delete ko c).
Proof.
  intros Hk Hsize. unfold cacheSet. rewrite Hk, Hsize.
  rewrite bool_decide_eq_false_2 by lia.
  destruct (oldestEntry (sessionEntries (sessionOf k) c)) as [[ko eo]|] eqn:Hold.
  - apply oldestEntry_spec in Hold as [Hko Hmin].
    apply lookup_sessionEntries in Hko as [Hko Hsess].
    exists ko, eo. split_and!; [done..| |done].
    intros k' e' Hk' Hsess'. apply (Hmin k'). by apply lookup_sessionEntries.
  - apply oldestEntry_None in Hold. rewrite Hold, map_size_empty in Hsize.
    discriminate.
Qed.
End cache.

(** C7: an insertion under a new key for a session that already holds 100
    entries removes one entry, which belongs to that session and is its
    oldest, and adds the new one; the entries of every other session stay
    as they were and the session still holds 100 entries. And whatever the
    history of the cache, an entry that [get] returns was inserted less
    than one hour before. *)
Theorem signature_cache_policy (c : gmap CacheKey CacheEntry) (now : Z)
    (k : CacheKey) (v : SignedThinking) :
  c !! k = None →
  size (sessionEntries (sessionOf k) c) = 100%nat →
  (∃ ko eo,
     c !! ko = Some eo ∧ sessionOf ko = sessionOf k ∧
     (∀ k' e', c !! k' = Some e' → sessionOf k' = sessionOf k →
               expiresAt eo ≤ expiresAt e') ∧
     cacheSet now k v c = <[k := mkCacheEntry v (now + 3600000)]> (delete ko c) ∧
     (∀ k', k' ≠ k → k' ≠ ko → cacheSet now k v c !! k' = c !! k') ∧
     (∀ k', sessionOf k' ≠ sessionOf k → cacheSet now k v c !! k' = c !! k') ∧
     size (sessionEntries (sessionOf k) (cacheSet now k v c)) = 100%nat) ∧
  (∀ ops t k' v',
     cacheGet t k' (runCache ops) = Some v' →
     ∃ t0, OpSet t0 k' v' ∈ ops ∧ t - t0 < 3600000).
Proof.
  intros Hk Hsize. split; [|apply cacheGet_fresh].
  destruct (cacheSet_full now k v c Hk Hsize) as (ko & eo & Hko & Hsess & Hmin & Hset).
  exists ko, eo. split_and!; [done..| | |].
  - intros k' ? ?. rewrite Hset, lookup_insert_ne, lookup_delete_ne; done.
  - intros k' Hother. rewrite Hset, lookup_insert_ne, lookup_delete_ne; congruence.
  - rewrite Hset. unfold sessionEntries.
    rewrite map_filter_insert_True, map_filter_delete by done.
    rewrite map_size_insert_None.
    + rewrite map_size_delete_Some.
      * fold (sessionEntries (sessionOf k) c). by rewrite Hsize.
      * exists eo. by apply map_lookup_filter_Some.
    + rewrite lookup_delete_ne by congruence.
      apply map_lookup_filter_None. by left.
Qed.

Lemma signature_cache_policy_witness :
  let k : CacheKey := ("session-1", "claude-sonnet", "project-a", "fresh") in
  let v := mkSignedThinking "plan" "signature" in
  (sampleCache !! k = None ∧
   size (sessionEntries (sessionOf k) sampleCache) = 100%nat) ∧
  (∃ ko eo,
     sampleCache !! ko = Some eo ∧ sessionOf ko = sessionOf k ∧
     (∀ k' e', sampleCache !! k' = Some e' → sessionOf k' = sessionOf k →
               expiresAt eo ≤ expiresAt e') ∧
     cacheSet 7000 k v sampleCache
       = <[k := mkCacheEntry v (7000 + 3600000)]> (delete ko sampleCache) ∧
     (∀ k', k' ≠ k → k' ≠ ko → cacheSet 7000 k v sampleCache !! k' = sampleCache !! k') ∧
     (∀ k', sessionOf k' ≠ sessionOf k →
            cacheSet 7000 k v sampleCache !! k' = sampleCache !! k') ∧
     size (sessionEntries (sessionOf k) (cacheSet 7000 k v sampleCache)) = 100%nat) ∧
  (∀ ops t k' v',
     cacheGet t k' (runCache ops) = Some v' →
     ∃ t0, OpSet t0 k' v' ∈ ops ∧ t - t0 < 3600000).
Proof.
  intros k v.
  assert (sampleCache !! k = None) as Hk by (vm_compute; reflexivity).
  assert (size (sessionEntries (sessionOf k) sampleCache) = 100%nat) as Hsize
    by (vm_compute; reflexivity).
  split; [exact (conj Hk Hsize)|].
  exact (signature_cache_policy sampleCache 7000 k v Hk Hsize).
Defined.

(** In the sample cache the entry that goes is the one inserted first, and
    the entry of the other session is still there. *)
Example sampleCache_eviction :
  let k : CacheKey := ("session-1", "claude-sonnet", "project-a", "fresh") in
  let after := cacheSet 7000 k (mkSignedThinking "plan" "signature") sampleCache in
  after !! sampleKey 0 = None ∧
  after !! sampleKey 1 = sampleCache !! sampleKey 1 ∧
  after !! otherKey = sampleCache !! otherKey ∧
  size after = size sampleCache.
Proof. vm_compute. repeat split. Qed.

(** * Further properties of the account storage *)

Section storage_more.
Implicit Types (accounts : list AccountMetadata) (env : Env) (st : IoState).

Lemma dedup_fixed accounts :
  deduplicateAccountsByEmail (deduplicateAccountsByEmail accounts)
  = deduplicateAccountsByEmail accounts.
Proof.
  apply dedup_distinct. intros i j a b e Ha Hb Hakey Hbkey.
  eapply NoDup_omap_lookup; eauto using dedup_NoDup.
Qed.

Lemma omap_lookup_distinct {A B} (f : A → option B) (l : list A) :
  (∀ i j a b y, l !! i = Some a → l !! j = Some b →
     f a = Some y → f b = Some y → i = j) →
  NoDup (omap f l).
Proof.
  induction l as [|x l IH]; intros Hinj; simpl; [constructor|].
  assert (NoDup (omap f l)) as Htail.
  { apply IH. intros i j a b y Ha Hb Hfa Hfb.
    by pose proof (Hinj (S i) (S j) a b y Ha Hb Hfa Hfb) as [= ->]. }
  destruct (f x) as [y|] eqn:Hx; [|done].
  constructor; [|done].
  intros (b & Hb & Hfb)%list_elem_of_omap.
  apply list_elem_of_lookup_1 in Hb as [j Hb].
  by pose proof (Hinj 0%nat (S j) x b y eq_refl Hb Hx Hfb).
Qed.

Lemma kept_of_member accounts a :
  a ∈ accounts →
  a ∈ deduplicateAccountsByEmail accounts ∨
  ∃ b e, b ∈ deduplicateAccountsByEmail accounts ∧
         emailKey a = Some e ∧ emailKey b = Some e ∧ atLeastAsNew b a.
Proof.
  intros [i Ha]%list_elem_of_lookup_1.
  unfold deduplicateAccountsByEmail. rewrite collectKept_atPositions.
  destruct (decide (i ∈ keptIndices accounts)) as [Hin|Hdrop].
  - left. apply elem_of_atPositions. eauto.
  - right.
    destruct (dropped_is_beaten _ _ _ Ha Hdrop)
      as (j & b & e & Hj & _ & Hb & Hakey & Hbkey & Hle & _).
    exists b, e. split_and!; try done. apply elem_of_atPositions. eauto.
Qed.

Lemma noEmail_kept accounts i a :
  accounts !! i = Some a → emailKey a = None → i ∈ keptIndices accounts.
Proof.
  intros Ha Hkey. apply elem_of_keptIndices. left.
  destruct (firstPass_inv accounts) as [Hkeep _ _]. apply Hkeep.
  split; [by eapply lookup_lt_Some | eauto].
Qed.

Lemma filter_atPositions {A} (P : A → Prop) `{!∀ x, Decision (P x)}
    keep s (l : list A) :
  (∀ i a, l !! i = Some a → P a → (s + i)%nat ∈ keep) →
  filter P (atPositions keep s l) = filter P l.
Proof.
  revert s. induction l as [|a l IH]; intros s Hkeep; simpl; [done|].
  assert (filter P (atPositions keep (S s) l) = filter P l) as Htail.
  { apply IH. intros i x Hx HP. rewrite Nat.add_succ_l, <-Nat.add_succ_r.
    by apply (Hkeep (S i) x). }
  case_bool_decide as Hs.
  - by rewrite !filter_cons, Htail.
  - rewrite filter_cons, Htail. destruct (decide (P a)) as [HP|]; [|done].
    destruct Hs. rewrite <-(Nat.add_0_r s). by apply (Hkeep 0%nat a).
Qed.

Lemma length_by_key {A B} (f : A → option B) (l : list A) :
  length l = (length (filter (λ a, f a = None) l) + length (omap f l))%nat.
Proof.
  induction l as [|a l IH]; [done|].
  rewrite filter_cons. cbn [omap list_omap].
  fold (omap f l). destruct (f a) eqn:Hfa.
  - destruct (decide (Some b = None)); [done|]. simpl. lia.
  - destruct (decide (None = None)); [|done]. simpl. lia.
Qed.
End storage_more.



(** The sample version-1 file loads as the one migrated account, with its
    reset time for both families. *)
Example load_v1_sample :
  (loadAccounts
     (env_of (DataVersion1 (mkAccountStorageV1 [RawAccount limited_v1; RawOther] (Some 1))))
     quiet).1
  = Return (Some {| version := 2;
                    accounts := [mkAccountMetadata (Some "carol@example.com") "token-4"
                                   None None 300 800 (Some RateLimit)
                                   (Some (mkRateLimitState (Some 5000) (Some 5000)))];
                    activeIndex := 0 |}).
Proof. vm_compute. reflexivity. Qed.

(** X1: in the result of de-duplication no two accounts have the same
    non-empty email. *)
Theorem dedup_emails_distinct (accounts : list AccountMetadata) :
  NoDup (omap emailKey (deduplicateAccountsByEmail accounts)) ∧
  ∀ i j a b e,
    deduplicateAccountsByEmail accounts !! i = Some a →
    deduplicateAccountsByEmail accounts !! j = Some b →
    emailKey a = Some e → emailKey b = Some e → i = j.
Proof.
  split; [apply dedup_NoDup|].
  intros i j a b e Ha Hb Hakey Hbkey.
  eapply NoDup_omap_lookup; eauto using dedup_NoDup.
Qed.

(** X2: de-duplication returns the list it was given exactly when no
    non-empty email occurs twice in it. *)
Theorem dedup_unchanged_iff (accounts : list AccountMetadata) :
  deduplicateAccountsByEmail accounts = accounts ↔ NoDup (omap emailKey accounts).
Proof.
  split.
  - intros <-. apply dedup_NoDup.
  - intros Hnd. apply dedup_distinct. intros i j a b e Ha Hb Hakey Hbkey.
    by eapply NoDup_omap_lookup.
Qed.

(** X3: no identity is lost: an account without email stays in the result,
    as often as it occurs, and for an account with an email the result holds
    an account with that email that is at least as new. *)
Theorem dedup_keeps_every_identity (accounts : list AccountMetadata) :
  filter (λ a, emailKey a = None) (deduplicateAccountsByEmail accounts)
    = filter (λ a, emailKey a = None) accounts ∧
  ∀ a e, a ∈ accounts → emailKey a = Some e →
    ∃ b, b ∈ deduplicateAccountsByEmail accounts ∧ emailKey b = Some e ∧
         atLeastAsNew b a.
Proof.
  split.
  - unfold deduplicateAccountsByEmail. rewrite collectKept_atPositions.
    apply filter_atPositions. intros i a Ha Hkey. by eapply noEmail_kept.
  - intros a e Ha Hkey. destruct (kept_of_member accounts a Ha) as [Hin|Hb].
    + exists a. split_and!; [done..|]. apply atLeastAsNew_refl.
    + destruct Hb as (b & e' & Hb & Hakey & Hbkey & Hle).
      exists b. split_and!; [done| congruence |done].
Qed.

(** X4: the result holds as many accounts as there are accounts without
    email plus distinct non-empty emails. *)
Theorem dedup_length (accounts : list AccountMetadata) :
  length (deduplicateAccountsByEmail accounts) =
  (length (filter (λ a, emailKey a = None) accounts) +
   size (list_to_set (omap emailKey accounts) : gset string))%nat.
Proof.
  rewrite (length_by_key emailKey (deduplicateAccountsByEmail accounts)).
  f_equal.
  - f_equal. unfold deduplicateAccountsByEmail. rewrite collectKept_atPositions.
    apply filter_atPositions. intros i a Ha Hkey. by eapply noEmail_kept.
  - rewrite <-(size_list_to_set (C:=gset string)) by apply dedup_NoDup.
    f_equal. apply set_eq. intros e. rewrite !elem_of_list_to_set.
    rewrite !list_elem_of_omap. split.
    + intros (a & Ha & Hkey). exists a. split; [|done].
      revert Ha. apply sublist_subseteq.
      unfold deduplicateAccountsByEmail. rewrite collectKept_atPositions.
      apply atPositions_sublist.
    + intros (a & Ha & Hkey).
      destruct (kept_of_member accounts a Ha) as [Hin|Hb]; [eauto|].
      destruct Hb as (b & e' & Hb & Hakey & Hbkey & _).
      exists b. split; [done | congruence].
Qed.

Section loading_more.
Implicit Types (env : Env) (st : IoState) (storage : ParsedStorage).

Lemma validAccounts_accounts (l : list AccountMetadata) :
  validAccounts (RawAccount <$> l) = l.
Proof.
  unfold validAccounts. induction l as [|a l IH]; [done|].
  cbn [fmap list_fmap omap list_omap isValidAccount]. f_equal. apply IH.
Qed.

Lemma clampActiveIndex_fixed stored len :
  clampActiveIndex (Some (clampActiveIndex stored len)) len
  = clampActiveIndex stored len.
Proof. unfold clampActiveIndex. destruct (Z.ltb_spec 0 (Z.of_nat len)); lia. Qed.

Lemma finishLoad_fixed storage :
  finishLoad (asParsed (finishLoad storage)) = finishLoad storage.
Proof.
  unfold finishLoad, asParsed. simpl.
  rewrite validAccounts_accounts, dedup_fixed. f_equal.
  apply clampActiveIndex_fixed.
Qed.

Lemma migrate_cases (clk : nat → Z) (v1 : AccountStorageV1) :
  ((RawNull ∉ v1_accounts v1) ∧
   ∃ accs, migrateV1ToV2 clk v1 = Return (mkParsedStorage accs (v1_activeIndex v1))) ∨
  (RawNull ∈ v1_accounts v1 ∧ migrateV1ToV2 clk v1 = Throw TypeError).
Proof.
  unfold migrateV1ToV2. generalize 0%nat as s.
  induction (v1_accounts v1) as [|r l IH]; intros s; simpl.
  - left. split; [apply not_elem_of_nil | eauto].
  - destruct r as [| |acc]; simpl.
    + right. split; [by left | done].
    + destruct (IH (S s)) as [[Hl (accs & Hm)]|[Hl Hm]].
      * left. split; [by apply not_elem_of_cons|].
        destruct (mapFrom _ _ l); [|done]. simpl in *. eauto.
      * right. split; [by right|]. by destruct (mapFrom _ _ l).
    + destruct (IH (S s)) as [[Hl (accs & Hm)]|[Hl Hm]].
      * left. split; [by apply not_elem_of_cons|].
        destruct (mapFrom _ _ l); [|done]. simpl in *. eauto.
      * right. split; [by right|]. by destruct (mapFrom _ _ l).
Qed.

(** Every way a call of [loadAccounts] can go. *)
Lemma loadAccounts_cases env st :
  let info := mkLogLine LogInfo "[opencode-antigravity-auth] Migrating account storage from v1 to v2" in
  let failed := mkLogLine LogError "[opencode-antigravity-auth] Failed to load account storage:" in
  match file env with
  | ReadFails e =>
    loadAccounts env st =
      (Return None,
       if bool_decide (errorCode e = Some "ENOENT") then st
       else mkIoState (console st ++ [failed]) (written st))
  | NotJson | Json DataNull =>
    loadAccounts env st = (Return None, mkIoState (console st ++ [failed]) (written st))
  | Json DataNoArray =>
    loadAccounts env st =
      (Return None,
       mkIoState (console st ++
         [mkLogLine LogWarn "[opencode-antigravity-auth] Invalid storage format, ignoring"])
         (written st))
  | Json DataOtherVersion =>
    loadAccounts env st =
      (Return None,
       mkIoState (console st ++
         [mkLogLine LogWarn "[opencode-antigravity-auth] Unknown storage version, ignoring"])
         (written st))
  | Json (DataVersion2 storage) =>
    loadAccounts env st = (Return (Some (finishLoad storage)), st)
  | Json (DataVersion1 v1) =>
    match migrateV1ToV2 (clock env) v1 with
    | Throw _ =>
      loadAccounts env st =
        (Return None, mkIoState (console st ++ [info; failed]) (written st))
    | Return storage =>
      loadAccounts env st =
        (Return (Some (finishLoad storage)),
         match saveError env with
         | None =>
           mkIoState
             (console st ++
                [info; mkLogLine LogInfo "[opencode-antigravity-auth] Migration to v2 complete"])
             (written st ++ [storage])
         | Some _ =>
           mkIoState
             (console st ++
                [info; mkLogLine LogWarn "[opencode-antigravity-auth] Failed to persist migrated storage:"])
             (written st)
         end)
    end
  end.
Proof.
  intros info failed.
  unfold loadAccounts, tryCatch, loadAccountsTry, readAndParse, saveAccounts.
  destruct (file env) as [e| |[| |v1|storage|]] eqn:Hfile;
    unfold mbind, M_bind, mret, M_ret, log, lift, throw, writeFile; simpl;
    try done.
  - case_bool_decide; simpl; [by destruct st | done].
  - destruct (migrateV1ToV2 (clock env) v1) as [storage|e] eqn:Hmig; simpl.
    + destruct (saveError env); simpl; by rewrite <-!app_assoc.
    + destruct (migrate_cases (clock env) v1) as [[_ (? & Hm)]|[_ Hm]];
        rewrite Hm in Hmig; [done|]. injection Hmig as <-. simpl.
      by rewrite <-app_assoc.
Qed.
End loading_more.

(** X5: a storage returned by [loadAccounts] survives the round trip
    through the file: when it is saved and the file is loaded again, the
    same storage comes back, nothing is logged and only that one write
    happens. *)
Theorem load_save_load (env env' : Env) (st0 st0' st : IoState) (s : AccountStorage) :
  loadAccounts env st0 = (Return (Some s), st0') →
  saveError env' = None →
  saveThenLoad env' s st
  = (Return (Some s), mkIoState (console st) (written st ++ [asParsed s])).
Proof.
  intros (storage & -> & _)%loadAccounts_Some Hsave.
  unfold saveThenLoad, saveAccounts. rewrite Hsave.
  unfold mbind, M_bind, writeFile. simpl.
  rewrite loadAccounts_version2 with (storage := asParsed (finishLoad storage))
    by done.
  by rewrite finishLoad_fixed.
Qed.

Lemma load_save_load_witness :
  let storage :=
    mkParsedStorage [RawAccount alice_old; RawAccount alice_twin; RawAccount bob]
                    (Some 5) in
  let env := env_of (DataVersion2 storage) in
  (loadAccounts env quiet = (Return (Some (finishLoad storage)), quiet) ∧
   saveError env = None) ∧
  saveThenLoad env (finishLoad storage) quiet
  = (Return (Some (finishLoad storage)),
     mkIoState (console quiet) (written quiet ++ [asParsed (finishLoad storage)])).
Proof.
  intros storage env.
  assert (loadAccounts env quiet = (Return (Some (finishLoad storage)), quiet))
    as Hload by reflexivity.
  assert (saveError env = None) as Hsave by reflexivity.
  split; [exact (conj Hload Hsave)|].
  exact (load_save_load env env quiet quiet quiet (finishLoad storage) Hload Hsave).
Defined.

(** X6: a migration that was written to the file is not repeated: the next
    call reads the file as version 2, returns the same storage, logs
    nothing and writes nothing. *)
Theorem migration_happens_once (env env' : Env) (lines : list LogLine)
    (v1 : AccountStorageV1) :
  file env = Json (DataVersion1 v1) →
  RawNull ∉ v1_accounts v1 →
  saveError env = None →
  file env' = fileAfter (file env) (loadAccounts env (mkIoState lines [])).2 →
  ∃ s st',
    loadAccounts env (mkIoState lines []) = (Return (Some s), st') ∧
    file env' ≠ file env ∧
    loadAccounts env' st' = (Return (Some s), st').
Proof.
  intros Hfile Hnull Hsave Hfile'.
  pose proof (loadAccounts_cases env (mkIoState lines [])) as Hload.
  simpl in Hload. rewrite Hfile in Hload.
  destruct (migrate_cases (clock env) v1) as [[_ (accs & Hm)]|[? _]]; [|done].
  rewrite Hm, Hsave in Hload. rewrite Hload in Hfile'. simpl in Hfile'.
  eexists _, _. split; [exact Hload|]. split.
  - rewrite Hfile', Hfile. done.
  - by apply loadAccounts_version2.
Qed.

Lemma migration_happens_once_witness :
  let v1 := mkAccountStorageV1 [RawAccount limited_v1; RawOther] (Some 1) in
  let env := env_of (DataVersion1 v1) in
  let env' := env_of (DataVersion2
                (mkParsedStorage [RawAccount (migrateAccount 1000 limited_v1); RawOther]
                                 (Some 1))) in
  (file env = Json (DataVersion1 v1) ∧ (RawNull ∉ v1_accounts v1) ∧
   saveError env = None ∧
   file env' = fileAfter (file env) (loadAccounts env (mkIoState [] [])).2) ∧
  ∃ s st',
    loadAccounts env (mkIoState [] []) = (Return (Some s), st') ∧
    file env' ≠ file env ∧
    loadAccounts env' st' = (Return (Some s), st').
Proof.
  intros v1 env env'.
  assert (file env = Json (DataVersion1 v1)) as Hfile by reflexivity.
  assert (RawNull ∉ v1_accounts v1) as Hnull.
  { simpl. intros Hin. repeat (apply elem_of_cons in Hin as [Hin|Hin]; [discriminate|]).
    by apply elem_of_nil in Hin. }
  assert (saveError env = None) as Hsave by reflexivity.
  assert (file env' = fileAfter (file env) (loadAccounts env (mkIoState [] [])).2)
    as Hfile' by reflexivity.
  split; [exact (conj Hfile (conj Hnull (conj Hsave Hfile')))|].
  exact (migration_happens_once env env' [] v1 Hfile Hnull Hsave Hfile').
Defined.

(** X7: [loadAccounts] writes the file only to persist a migration: the
    file is written at most once, and only when the stored data has
    version 1, its migration succeeds and saving does not fail; what is
    written is the migrated storage. *)
Theorem load_writes_only_migration (env : Env) (st : IoState) :
  written (loadAccounts env st).2 = written st ∨
  ∃ v1 storage,
    file env = Json (DataVersion1 v1) ∧
    migrateV1ToV2 (clock env) v1 = Return storage ∧
    saveError env = None ∧
    written (loadAccounts env st).2 = written st ++ [storage].
Proof.
  pose proof (loadAccounts_cases env st) as Hload. simpl in Hload.
  destruct (file env) as [e| |[| |v1|storage|]] eqn:Hfile;
    try (rewrite Hload; left; simpl; by try case_bool_decide).
  destruct (migrateV1ToV2 (clock env) v1) as [storage|e] eqn:Hmig;
    [|by rewrite Hload; left].
  destruct (saveError env) eqn:Hsave; rewrite Hload; [by left|].
  right. by exists v1, storage.
Qed.

(** X8: whether the migrated storage can be saved has no influence on what
    [loadAccounts] returns; when the save fails after a migration, the last
    line on the console is the warning about it instead of the line about
    the completed migration. *)
Theorem load_result_independent_of_save (env : Env) (failure : option JsError)
    (st : IoState) :
  let env' := mkEnv (file env) failure (clock env) in
  (loadAccounts env' st).1 = (loadAccounts env st).1 ∧
  (∀ e v1 storage,
     failure = Some e →
     file env = Json (DataVersion1 v1) →
     migrateV1ToV2 (clock env) v1 = Return storage →
     last (console (loadAccounts env' st).2)
     = Some (mkLogLine LogWarn
               "[opencode-antigravity-auth] Failed to persist migrated storage:")).
Proof.
  intros env'.
  pose proof (loadAccounts_cases env st) as Hload.
  pose proof (loadAccounts_cases env' st) as Hload'. simpl in Hload, Hload'.
  destruct (file env) as [e| |[| |v1|storage|]] eqn:Hfile;
    try (rewrite Hload, Hload'; split; [done|by intros]).
  destruct (migrateV1ToV2 (clock env) v1) as [storage|e] eqn:Hmig;
    rewrite Hload, Hload'; (split; [done|]).
  - intros e v1' storage' -> _ _. simpl. by rewrite last_app.
  - intros e' v1' storage' _ [= <-] Hm. congruence.
Qed.

Lemma load_result_independent_of_save_witness :
  let v1 := mkAccountStorageV1 [RawAccount limited_v1; RawOther] (Some 1) in
  let env := env_of (DataVersion1 v1) in
  let env' := mkEnv (file env) (Some (SystemError "ENOSPC")) (clock env) in
  (loadAccounts env' quiet).1 = (loadAccounts env quiet).1 ∧
  last (console (loadAccounts env' quiet).2)
  = Some (mkLogLine LogWarn
            "[opencode-antigravity-auth] Failed to persist migrated storage:").
Proof.
  intros v1 env env'.
  destruct (load_result_independent_of_save env (Some (SystemError "ENOSPC")) quiet)
    as [Hresult Hwarn].
  split; [exact Hresult|].
  exact (Hwarn (SystemError "ENOSPC") v1
           (mkParsedStorage [RawAccount (migrateAccount 1000 limited_v1); RawOther] (Some 1))
           eq_refl eq_refl eq_refl).
Defined.

(** X9: one null entry among the accounts of a version-1 file makes the
    whole load fail: nothing is returned, the console gets the line about
    the migration and an error, and the file is not written. *)
Theorem load_v1_null_entry (env : Env) (st : IoState) (v1 : AccountStorageV1) :
  file env = Json (DataVersion1 v1) →
  RawNull ∈ v1_accounts v1 →
  loadAccounts env st =
    (Return None,
     mkIoState
       (console st ++
          [mkLogLine LogInfo "[opencode-antigravity-auth] Migrating account storage from v1 to v2";
           mkLogLine LogError "[opencode-antigravity-auth] Failed to load account storage:"])
       (written st)).
Proof.
  intros Hfile Hnull.
  pose proof (loadAccounts_cases env st) as Hload. simpl in Hload.
  rewrite Hfile in Hload.
  destruct (migrate_cases (clock env) v1) as [[? _]|[_ Hm]]; [done|].
  by rewrite Hm in Hload.
Qed.

Lemma load_v1_null_entry_witness :
  let v1 := mkAccountStorageV1 [RawAccount limited_v1; RawNull] (Some 0) in
  let env := env_of (DataVersion1 v1) in
  (file env = Json (DataVersion1 v1) ∧ RawNull ∈ v1_accounts v1) ∧
  loadAccounts env quiet =
    (Return None,
     mkIoState
       (console quiet ++
          [mkLogLine LogInfo "[opencode-antigravity-auth] Migrating account storage from v1 to v2";
           mkLogLine LogError "[opencode-antigravity-auth] Failed to load account storage:"])
       (written quiet)).
Proof.
  intros v1 env.
  assert (file env = Json (DataVersion1 v1)) as Hfile by reflexivity.
  assert (RawNull ∈ v1_accounts v1) as Hnull by (simpl; right; left).
  split; [exact (conj Hfile Hnull)|].
  exact (load_v1_null_entry env quiet v1 Hfile Hnull).
Defined.

(** X10: [loadAccounts] returns a storage exactly when the stored data has
    an array of accounts and either version 2, or version 1 and no null
    entry. *)
Theorem load_returns_storage_iff (env : Env) (st : IoState) :
  ∃ r st',
    loadAccounts env st = (Return r, st') ∧
    (is_Some r ↔
       (∃ storage, file env = Json (DataVersion2 storage)) ∨
       (∃ v1, file env = Json (DataVersion1 v1) ∧ RawNull ∉ v1_accounts v1)).
Proof.
  pose proof (loadAccounts_cases env st) as Hload. simpl in Hload.
  destruct (file env) as [e| |[| |v1|storage|]] eqn:Hfile;
    try (eexists _, _; split; [exact Hload|]; split;
         [by intros [? ?] | by intros [[? ?]|(? & ? & _)]]).
  - destruct (migrate_cases (clock env) v1) as [[Hnull (accs & Hm)]|[Hnull Hm]];
      rewrite Hm in Hload; eexists _, _; (split; [exact Hload|]); split.
    + intros _. right. eauto.
    + eauto.
    + by intros [? ?].
    + intros [[? ?]|(v & [= <-] & ?)]; done.
  - eexists _, _. split; [exact Hload|]. split; [eauto|eauto].
Qed.

(** X11: apart from a missing file, [loadAccounts] never returns nothing in
    silence: the last line it put on the console is then a warning or an
    error. *)
Theorem load_failure_is_logged (env : Env) (st st' : IoState) :
  loadAccounts env st = (Return None, st') →
  file env ≠ ReadFails (SystemError "ENOENT") →
  ∃ lines line,
    console st' = console st ++ lines ++ [line] ∧
    (level line = LogWarn ∨ level line = LogError).
Proof.
  intros Hnone Hfile.
  pose proof (loadAccounts_cases env st) as Hload. simpl in Hload.
  destruct (file env) as [e| |[| |v1|storage|]];
    try (rewrite Hload in Hnone; injection Hnone as <-;
         by eexists [], _; split; [reflexivity|]; simpl; eauto).
  - rewrite Hload in Hnone. injection Hnone as <-. case_bool_decide as Hcode.
    + destruct e as [code| |]; simplify_eq/=; done.
    + eexists [], _. split; [reflexivity|]. simpl. eauto.
  - destruct (migrateV1ToV2 (clock env) v1); rewrite Hload in Hnone; [done|].
    injection Hnone as <-. eexists [_], _. split; [reflexivity|]. simpl. eauto.
  - rewrite Hload in Hnone. done.
Qed.

Lemma load_failure_is_logged_witness :
  let env := mkEnv (ReadFails (SystemError "EACCES")) None (λ _, 0) in
  let st' := mkIoState
    [mkLogLine LogError "[opencode-antigravity-auth] Failed to load account storage:"] [] in
  (loadAccounts env quiet = (Return None, st') ∧
   file env ≠ ReadFails (SystemError "ENOENT")) ∧
  ∃ lines line,
    console st' = console quiet ++ lines ++ [line] ∧
    (level line = LogWarn ∨ level line = LogError).
Proof.
  intros env st'.
  assert (loadAccounts env quiet = (Return None, st')) as Hload by reflexivity.
  assert (file env ≠ ReadFails (SystemError "ENOENT")) as Hfile by discriminate.
  split; [exact (conj Hload Hfile)|].
  exact (load_failure_is_logged env quiet st' Hload Hfile).
Defined.

(** X12: the stored active index is returned as it is when it is a position
    of the returned list; a negative index or one that is not a finite
    number becomes 0, and an index beyond the list becomes the last
    position. *)
Theorem load_active_index (env : Env) (st st' : IoState) (s : AccountStorage) :
  loadAccounts env st = (Return (Some s), st') →
  let len := Z.of_nat (length (accounts s)) in
  match storedActiveIndex (file env) with
  | Some n =>
    (0 ≤ n < len → activeIndex s = n) ∧
    (n < 0 → activeIndex s = 0) ∧
    (len ≤ n → 0 < len → activeIndex s = len - 1)
  | None => activeIndex s = 0
  end.
Proof.
  intros (storage & -> & Hfile)%loadAccounts_Some. simpl.
  assert (storedActiveIndex (file env) = parsed_activeIndex storage) as ->.
  { destruct Hfile as [->|(v1 & -> & Hmig)]; [done|]. simpl.
    destruct (migrate_cases (clock env) v1) as [[_ (accs & Hm)]|[_ Hm]];
      rewrite Hm in Hmig; [|done]. by injection Hmig as <-. }
  set (kept := deduplicateAccountsByEmail _).
  unfold clampActiveIndex. destruct (parsed_activeIndex storage) as [n|].
  - destruct (Z.ltb_spec 0 (Z.of_nat (length kept))); split_and!; lia.
  - destruct (Z.ltb_spec 0 (Z.of_nat (length kept))); lia.
Qed.

Lemma load_active_index_witness :
  let storage := mkParsedStorage [RawAccount alice_old; RawAccount bob] (Some 1) in
  let env := env_of (DataVersion2 storage) in
  loadAccounts env quiet = (Return (Some (finishLoad storage)), quiet) ∧
  let len := Z.of_nat (length (accounts (finishLoad storage))) in
  match storedActiveIndex (file env) with
  | Some n =>
    (0 ≤ n < len → activeIndex (finishLoad storage) = n) ∧
    (n < 0 → activeIndex (finishLoad storage) = 0) ∧
    (len ≤ n → 0 < len → activeIndex (finishLoad storage) = len - 1)
  | None => activeIndex (finishLoad storage) = 0
  end.
Proof.
  intros storage env.
  assert (loadAccounts env quiet = (Return (Some (finishLoad storage)), quiet))
    as Hload by reflexivity.
  split; [exact Hload|].
  exact (load_active_index env quiet quiet (finishLoad storage) Hload).
Defined.

(** X13: [clearAccounts] never raises and never writes; it logs an error
    exactly when the unlink fails with a code other than ENOENT; and once
    the file has been unlinked, [loadAccounts] returns nothing and is
    silent. *)
Theorem clearAccounts_behaviour (unlinkError : option JsError) (st : IoState) :
  ∃ st',
    clearAccounts unlinkError st = (Return tt, st') ∧
    written st' = written st ∧
    (console st' = console st ↔
       unlinkError = None ∨ unlinkError = Some (SystemError "ENOENT")) ∧
    (console st' ≠ console st →
       console st' = console st ++
         [mkLogLine LogError "[opencode-antigravity-auth] Failed to clear account storage:"]) ∧
    (unlinkError = None →
     ∀ env before, file env = fileAfterClear before unlinkError →
       loadAccounts env st' = (Return None, st')).
Proof.
  unfold clearAccounts, tryCatch.
  destruct unlinkError as [e|]; unfold throw, mret, M_ret, log; simpl.
  - case_bool_decide as Hcode; simpl.
    + eexists. split; [reflexivity|]. simpl. split_and!; try done.
      split.
      * intros Heq. apply (f_equal length) in Heq.
        rewrite length_app in Heq. simpl in Heq. lia.
      * intros [?|[= ->]]; [done|]. by destruct Hcode.
    + eexists. split; [reflexivity|]. split_and!; try done.
      split; [|done]. intros _. right.
      destruct e as [code| |]; simplify_eq/=; done.
  - eexists. split; [reflexivity|]. split_and!; try done.
    + split; [by left | done].
    + intros _ env before Hfile. simpl in Hfile.
      pose proof (loadAccounts_cases env st) as Hload. simpl in Hload.
      rewrite Hfile in Hload. by rewrite Hload.
Qed.

(** * Locations *)

(** X14: the directory of the accounts file is the directory "opencode"
    under the user's configuration directory as long as the variable that
    names that directory (APPDATA on win32, XDG_CONFIG_HOME elsewhere) is
    unset or not empty; when it is the empty string the configuration
    directory is the empty string while the accounts file goes under the
    home directory. *)
Theorem config_dir_agreement (join : list string → string) (p : Process) :
  (configVariable p ≠ Some "" →
     getConfigDir join p = join [getUserConfigDir join p; "opencode"]) ∧
  (configVariable p = Some "" →
     getUserConfigDir join p = "" ∧
     getConfigDir join p =
       join [join (homedir p ::
                   if String.eqb (platform p) "win32"
                   then ["AppData"; "Roaming"] else [".config"]);
             "opencode"]).
Proof.
  unfold configVariable, getConfigDir, getUserConfigDir, nullish, orElse.
  destruct (String.eqb (platform p) "win32").
  - destruct (APPDATA p) as [v|]; (split; [|by intros [= ->]]); intros Hv; [|done].
    destruct (String.eqb_spec v ""); [congruence | done].
  - destruct (XDG_CONFIG_HOME p) as [v|]; (split; [|by intros [= ->]]); intros Hv;
      [|done].
    destruct (String.eqb_spec v ""); [congruence | done].
Qed.

(** * The update checker *)

Section update_checker.
Import AutoUpdate.
Implicit Types (c : Collaborators) (directory : string) (events : list PluginEvent).

Lemma handleEvents_checked i events : handleEvents true i events = (true, []).
Proof.
  revert i. induction events as [|ev events IH]; intros i; simpl; [done|].
  unfold event. destruct (negb _); simpl; by rewrite IH.
Qed.

Lemma event_unchecked ev :
  event false ev = (isRootSessionCreated ev, isRootSessionCreated ev).
Proof.
  unfold event, isRootSessionCreated.
  destruct (String.eqb (type ev) "session.created"); simpl; [|done].
  by destruct (truthy_string (parentID ev)).
Qed.

Lemma handleEvents_unchecked k events :
  (handleEvents false k events = (false, []) ∧
   ∀ ev, ev ∈ events → isRootSessionCreated ev = false) ∨
  (∃ i ev, handleEvents false k events = (true, [(k + i)%nat]) ∧
     events !! i = Some ev ∧ isRootSessionCreated ev = true ∧
     ∀ j ev', events !! j = Some ev' → (j < i)%nat → isRootSessionCreated ev' = false).
Proof.
  revert k. induction events as [|ev events IH]; intros k; simpl.
  - left. split; [done|]. by intros ev ?%elem_of_nil.
  - rewrite event_unchecked. destruct (isRootSessionCreated ev) eqn:Hev.
    + right. exists 0%nat, ev. rewrite handleEvents_checked, Nat.add_0_r.
      split_and!; [done..|]. intros; lia.
    + destruct (IH (S k)) as [[-> Hnone]|(i & ev' & -> & Hi & Hroot & Hfirst)].
      * left. split; [done|]. by intros ev' [->|?]%elem_of_cons; [|apply Hnone].
      * right. exists (S i), ev'. rewrite Nat.add_succ_r.
        split_and!; [done..|]. intros [|j] ev'' Hj Hlt; simpl in Hj.
        -- congruence.
        -- apply (Hfirst j); [done | lia].
Qed.
End update_checker.

(** X15: whatever events arrive, the hook sets its timer at most once, at
    the first event that reports a created session without parent; events
    of other types, of sessions with a parent and all later events set no
    timer. *)
Theorem hook_checks_once (c : AutoUpdate.Collaborators) (directory : string)
    (options : AutoUpdate.AutoUpdateCheckerOptions)
    (events : list AutoUpdate.PluginEvent) :
  let '(final, timers) :=
    (AutoUpdate.createAutoUpdateCheckerHook c directory options events).1 in
  (final = false ∧ timers = [] ∧
   ∀ ev, ev ∈ events → AutoUpdate.isRootSessionCreated ev = false) ∨
  (∃ i ev, final = true ∧ timers = [i] ∧
     events !! i = Some ev ∧ AutoUpdate.isRootSessionCreated ev = true ∧
     ∀ j ev', events !! j = Some ev' → (j < i)%nat →
              AutoUpdate.isRootSessionCreated ev' = false).
Proof.
  simpl.
  destruct (handleEvents_unchecked 0 events)
    as [[-> Hnone]|(i & ev & -> & Hi & Hroot & Hfirst)].
  - by left.
  - right. exists i, ev. done.
Qed.

Section update_effects.
Import AutoUpdate.
Implicit Types (c : Collaborators) (directory : string) (tr : list Effect).

(** A run from any effects is the run from none, after those effects. *)
Lemma runBackgroundUpdateCheck_from c directory autoUpdate tr :
  runBackgroundUpdateCheck c directory autoUpdate tr =
  ((runBackgroundUpdateCheck c directory autoUpdate []).1,
   tr ++ effectsOf (runBackgroundUpdateCheck c directory autoUpdate)).
Proof. idtac.
  unfold effectsOf, runBackgroundUpdateCheck, showUpdateAvailableToast,
    showAutoUpdatedToast, debugLog, showToast, emit.
  unfold mbind, T_bind, call. cbn [app snd fst].
  destruct (findPluginEntry c directory) as [[pluginInfo|]|?];
    [|cbn [fst snd]; rewrite <-?app_assoc; reflexivity..].
  destruct (getCachedVersion c) as [cachedVersion|?];
    [|cbn [fst snd]; rewrite <-?app_assoc; reflexivity].
  destruct (truthyString _) as [current|];
    [|cbn [fst snd]; rewrite <-?app_assoc; reflexivity].
  destruct (getLatestVersion c) as [latestVersion|?];
    [|cbn [fst snd]; rewrite <-?app_assoc; reflexivity].
  destruct (truthyString latestVersion) as [latest|];
    [|cbn [fst snd]; rewrite <-?app_assoc; reflexivity].
  destruct (String.eqb current latest);
    [cbn [fst snd]; rewrite <-?app_assoc; reflexivity|].
  destruct autoUpdate; cbn [negb];
    [|cbn [fst snd]; rewrite <-?app_assoc; reflexivity].
  destruct (isPinned pluginInfo).
  - destruct (updatePinnedVersion c _ _ _) as [[]|?];
      [|cbn [fst snd]; rewrite <-?app_assoc; reflexivity..].
    destruct (invalidatePackage c PACKAGE_NAME) as [[]|?];
      cbn [fst snd]; rewrite <-?app_assoc; reflexivity.
  - destruct (invalidatePackage c PACKAGE_NAME) as [[]|?];
      cbn [fst snd]; rewrite <-?app_assoc; reflexivity.
Qed.

(** The effects of the background check, case by case. *)
Lemma runBackgroundUpdateCheck_effects c directory autoUpdate :
  effectsOf (runBackgroundUpdateCheck c directory autoUpdate) =
  CallFindPluginEntry directory ::
  match findPluginEntry c directory with
  | Throw _ => []
  | Return None => [DebugLog "[auto-update-checker] Plugin not found in config"]
  | Return (Some pluginInfo) =>
    CallGetCachedVersion ::
    match getCachedVersion c with
    | Throw _ => []
    | Return cachedVersion =>
      match truthyString (match cachedVersion with
                          | Some v => Some v
                          | None => pinnedVersion pluginInfo
                          end) with
      | None => [DebugLog "[auto-update-checker] No version found (cached or pinned)"]
      | Some current =>
        CallGetLatestVersion ::
        match getLatestVersion c with
        | Throw _ => []
        | Return latestVersion =>
          match truthyString latestVersion with
          | None => [DebugLog "[auto-update-checker] Failed to fetch latest version"]
          | Some latest =>
            if String.eqb current latest
            then [DebugLog "[auto-update-checker] Already on latest version"]
            else
              DebugLog ("[auto-update-checker] Update available: " +:+ current
                        +:+ " → " +:+ latest) ::
              if negb autoUpdate then
                effectsOf (showUpdateAvailableToast latest) ++
                [DebugLog "[auto-update-checker] Auto-update disabled, notification only"]
              else if isPinned pluginInfo then
                CallUpdatePinnedVersion (configPath pluginInfo) (entry pluginInfo) latest ::
                match updatePinnedVersion c (configPath pluginInfo)
                                          (entry pluginInfo) latest with
                | Throw _ => []
                | Return true =>
                  CallInvalidatePackage PACKAGE_NAME ::
                  match invalidatePackage c PACKAGE_NAME with
                  | Throw _ => []
                  | Return _ =>
                    effectsOf (showAutoUpdatedToast current latest) ++
                    [DebugLog ("[auto-update-checker] Config updated: "
                               +:+ entry pluginInfo +:+ " → " +:+ PACKAGE_NAME
                               +:+ "@" +:+ latest)]
                  end
                | Return false => effectsOf (showUpdateAvailableToast latest)
                end
              else
                CallInvalidatePackage PACKAGE_NAME ::
                match invalidatePackage c PACKAGE_NAME with
                | Throw _ => []
                | Return _ => effectsOf (showUpdateAvailableToast latest)
                end
          end
        end
      end
    end
  end.
Proof. idtac.
  unfold effectsOf, runBackgroundUpdateCheck.
  unfold mbind, T_bind, call. cbn [app snd].
  destruct (findPluginEntry c directory) as [[pluginInfo|]|?]; [|reflexivity..].
  destruct (getCachedVersion c) as [cachedVersion|?]; [|reflexivity].
  destruct (truthyString _) as [current|]; [|reflexivity].
  destruct (getLatestVersion c) as [latestVersion|?]; [|reflexivity].
  destruct (truthyString latestVersion) as [latest|]; [|reflexivity].
  destruct (String.eqb current latest); [reflexivity|].
  destruct autoUpdate; cbn [negb]; [|reflexivity].
  destruct (isPinned pluginInfo).
  - destruct (updatePinnedVersion c _ _ _) as [[]|?]; [|reflexivity..].
    destruct (invalidatePackage c PACKAGE_NAME) as [[]|?]; reflexivity.
  - destruct (invalidatePackage c PACKAGE_NAME) as [[]|?]; reflexivity.
Qed.

Lemma showUpdateAvailableToast_effects latest :
  effectsOf (showUpdateAvailableToast latest) =
  [Toast (mkToastBody (Some "Antigravity Auth Update")
            ("v" +:+ latest +:+ " available. Restart OpenCode to apply.")
            VariantInfo (Some 8000));
   DebugLog ("[auto-update-checker] Update available toast shown: v" +:+ latest)].
Proof. reflexivity. Qed.

Lemma showAutoUpdatedToast_effects current latest :
  effectsOf (showAutoUpdatedToast current latest) =
  [Toast (mkToastBody (Some "Antigravity Auth Updated!")
            ("v" +:+ current +:+ " → v" +:+ latest +:+ newline
             +:+ "Restart OpenCode to apply.")
            VariantSuccess (Some 8000));
   DebugLog ("[auto-update-checker] Auto-updated toast shown: v" +:+ current
             +:+ " → v" +:+ latest)].
Proof. reflexivity. Qed.

Ltac effects_cases c directory :=
  rewrite runBackgroundUpdateCheck_effects;
  unfold updateAvailable;
  rewrite ?showUpdateAvailableToast_effects, ?showAutoUpdatedToast_effects;
  destruct (findPluginEntry c directory) as [[?pluginInfo|]|?];
  [destruct (getCachedVersion c) as [?cachedVersion|?];
   [destruct (truthyString match _ with Some v => Some v | None => _ end)
      as [?current|];
    [destruct (getLatestVersion c) as [?latestVersion|?];
     [destruct (truthyString _) as [?latest|];
      [destruct (String.eqb _ _) eqn:?Hsame|]|]|]|]|..].

Ltac invert_member H :=
  cbn [app] in H;
  repeat (apply elem_of_cons in H as [H|H]; [try discriminate H|]);
  try (by apply elem_of_nil in H).

Ltac show_member :=
  cbn [app]; repeat first [apply list_elem_of_here | apply list_elem_of_further].

(** X16: the background check rewrites the pinned version in the config
    exactly when auto-update is on, an update is available and the plugin
    entry is pinned; it then asks for the latest version to be written to
    the config file of that entry. *)
Theorem update_config_iff c directory autoUpdate config entryName ver :
  CallUpdatePinnedVersion config entryName ver
    ∈ effectsOf (runBackgroundUpdateCheck c directory autoUpdate) ↔
  autoUpdate = true ∧
  ∃ pluginInfo current,
    updateAvailable c directory = Some (pluginInfo, current, ver) ∧
    isPinned pluginInfo = true ∧
    config = configPath pluginInfo ∧ entryName = entry pluginInfo.
Proof. idtac.
  effects_cases c directory;
    (split; [intros Hin|intros [-> (pi & cur & Hav & Hpin & -> & ->)]]);
    try (by invert_member Hin); try discriminate Hav.
  - destruct autoUpdate; cbn [negb] in Hin; [|by invert_member Hin].
    destruct (isPinned pluginInfo) eqn:Hpin.
    + destruct (updatePinnedVersion c _ _ _) as [[]|?];
        [destruct (invalidatePackage c PACKAGE_NAME) as [[]|?]|..];
        invert_member Hin; simplify_eq; eauto 10.
    + destruct (invalidatePackage c PACKAGE_NAME) as [[]|?]; invert_member Hin.
  - simplify_eq. cbn [negb]. rewrite Hpin. show_member.
Qed.

(** X17: the background check invalidates the cached package exactly when
    auto-update is on, an update is available and, if the plugin entry is
    pinned, the config was rewritten; the package it names is this plugin. *)
Theorem invalidate_iff c directory autoUpdate name :
  CallInvalidatePackage name
    ∈ effectsOf (runBackgroundUpdateCheck c directory autoUpdate) ↔
  autoUpdate = true ∧ name = PACKAGE_NAME ∧
  ∃ pluginInfo current latest,
    updateAvailable c directory = Some (pluginInfo, current, latest) ∧
    (isPinned pluginInfo = true →
     updatePinnedVersion c (configPath pluginInfo) (entry pluginInfo) latest
       = Return true).
Proof. idtac.
  effects_cases c directory;
    (split; [intros Hin|intros [-> (-> & pi & cur & lat & Hav & Hup)]]);
    try (by invert_member Hin); try discriminate Hav.
  - destruct autoUpdate; cbn [negb] in Hin; [|by invert_member Hin].
    destruct (isPinned pluginInfo) eqn:Hpin.
    + destruct (updatePinnedVersion c _ _ _) as [[]|?] eqn:Hup;
        [destruct (invalidatePackage c PACKAGE_NAME) as [[]|?]|..];
        invert_member Hin; simplify_eq; eauto 10.
    + destruct (invalidatePackage c PACKAGE_NAME) as [[]|?];
        invert_member Hin; simplify_eq; split_and!; try done;
        eexists _, _, _; (split; [done|]); by rewrite Hpin.
  - simplify_eq. cbn [negb]. destruct (isPinned pi).
    + rewrite Hup by done. show_member.
    + show_member.
Qed.

(** X18: which toast the background check shows. A toast is shown only
    when an update is available: the notice of the available version when
    auto-update is off, when the config could not be rewritten, or when the
    entry is not pinned and the package was invalidated; the notice of the
    update done when the config was rewritten and the package invalidated. *)
Theorem toast_shown_iff c directory autoUpdate body :
  Toast body ∈ effectsOf (runBackgroundUpdateCheck c directory autoUpdate) ↔
  ∃ pluginInfo current latest,
    updateAvailable c directory = Some (pluginInfo, current, latest) ∧
    let available :=
      mkToastBody (Some "Antigravity Auth Update")
        ("v" +:+ latest +:+ " available. Restart OpenCode to apply.")
        VariantInfo (Some 8000) in
    let updated :=
      mkToastBody (Some "Antigravity Auth Updated!")
        ("v" +:+ current +:+ " → v" +:+ latest +:+ newline
         +:+ "Restart OpenCode to apply.")
        VariantSuccess (Some 8000) in
    let rewrite_result :=
      updatePinnedVersion c (configPath pluginInfo) (entry pluginInfo) latest in
    (autoUpdate = false ∧ body = available) ∨
    (autoUpdate = true ∧ isPinned pluginInfo = true ∧
     rewrite_result = Return false ∧ body = available) ∨
    (autoUpdate = true ∧ isPinned pluginInfo = true ∧
     rewrite_result = Return true ∧
     invalidatePackage c PACKAGE_NAME = Return tt ∧ body = updated) ∨
    (autoUpdate = true ∧ isPinned pluginInfo = false ∧
     invalidatePackage c PACKAGE_NAME = Return tt ∧ body = available).
Proof. idtac.
  effects_cases c directory;
    (split; [intros Hin|intros (pi & cur & lat & Hav & Hcase)]);
    try (by invert_member Hin); try discriminate Hav.
  - destruct autoUpdate; cbn [negb] in Hin.
    + destruct (isPinned pluginInfo) eqn:Hpin.
      * destruct (updatePinnedVersion c _ _ _) as [[]|?] eqn:Hup;
          [destruct (invalidatePackage c PACKAGE_NAME) as [[]|?] eqn:Hinv|..];
          invert_member Hin; simplify_eq; eexists _, _, _; (split; [done|]);
          cbn zeta; rewrite Hup, Hpin.
        -- right; right; left. done.
        -- right; left. done.
      * destruct (invalidatePackage c PACKAGE_NAME) as [[]|?] eqn:Hinv;
          invert_member Hin; simplify_eq; eexists _, _, _; (split; [done|]);
          cbn zeta; rewrite Hpin.
        right; right; right. done.
    + invert_member Hin; simplify_eq. eexists _, _, _. split; [done|].
      cbn zeta. by left.
  - simplify_eq. cbn zeta in Hcase.
    destruct Hcase as [[-> ->]|[(-> & Hpin & Hup & ->)|[(-> & Hpin & Hup & Hinv & ->)
                      |(-> & Hpin & Hinv & ->)]]]; cbn [negb];
      rewrite ?Hpin, ?Hup, ?Hinv; show_member.
Qed.
(** The effects of the timer callback, case by case. *)
Lemma timerCallback_effects c directory showStartupToast autoUpdate :
  effectsOf (timerCallback c directory showStartupToast autoUpdate) =
  CallGetLocalDevVersion directory ::
  match getLocalDevVersion c directory with
  | Throw _ => []
  | Return localDevVersion =>
    match truthyString localDevVersion with
    | Some version =>
      (if showStartupToast then effectsOf (showLocalDevToastCall version) else []) ++
      [DebugLog "[auto-update-checker] Local development mode"] ++
      (if showStartupToast then effectsOf (showLocalDevToastRest version) else [])
    | None =>
      effectsOf (runBackgroundUpdateCheck c directory autoUpdate) ++
      match (runBackgroundUpdateCheck c directory autoUpdate []).1 with
      | Return _ => []
      | Throw err =>
        [DebugLog ("[auto-update-checker] Background update check failed: "
                   +:+ errorText c err)]
      end
    end
  end.
Proof.
  unfold effectsOf at 1. unfold timerCallback, catch.
  unfold mbind, T_bind, call. cbn [app].
  destruct (getLocalDevVersion c directory) as [localDevVersion|?]; [|reflexivity].
  destruct (truthyString localDevVersion) as [version|].
  - by destruct showStartupToast.
  - rewrite runBackgroundUpdateCheck_from.
    destruct (runBackgroundUpdateCheck c directory autoUpdate []).1;
      cbn [fst snd app]; [by rewrite app_nil_r | reflexivity].
Qed.

Lemma timerCallback_outcome c directory showStartupToast autoUpdate tr :
  (timerCallback c directory showStartupToast autoUpdate tr).1 =
  match getLocalDevVersion c directory with
  | Throw e => Throw e
  | Return _ => Return tt
  end.
Proof.
  unfold timerCallback, catch. unfold mbind, T_bind, call.
  destruct (getLocalDevVersion c directory) as [localDevVersion|?]; [|reflexivity].
  destruct (truthyString localDevVersion) as [version|].
  - by destruct showStartupToast.
  - rewrite runBackgroundUpdateCheck_from.
    by destruct (runBackgroundUpdateCheck c directory autoUpdate []).1 as [[]|?].
Qed.

Lemma toastCount_app (l k : list Effect) :
  toastCount (l ++ k) = (toastCount l + toastCount k)%nat.
Proof. unfold toastCount. by rewrite List.filter_app, length_app. Qed.

Lemma runBackgroundUpdateCheck_toastCount c directory autoUpdate :
  (toastCount (effectsOf (runBackgroundUpdateCheck c directory autoUpdate)) ≤ 1)%nat.
Proof.
  effects_cases c directory; try (cbn; lia).
  destruct autoUpdate; cbn [negb];
    [destruct (isPinned pluginInfo);
     [destruct (updatePinnedVersion c _ _ _) as [[]|?];
      [destruct (invalidatePackage c PACKAGE_NAME) as [[]|?]|..]
     |destruct (invalidatePackage c PACKAGE_NAME) as [[]|?]]|];
    rewrite ?showUpdateAvailableToast_effects, ?showAutoUpdatedToast_effects;
    cbn; lia.
Qed.

(** X19: one start-up shows at most one toast, whatever the collaborators
    do; in local development mode it shows the toast of that mode exactly
    when start-up toasts are wanted. *)
Theorem at_most_one_toast c directory showStartupToast autoUpdate :
  (toastCount (effectsOf (timerCallback c directory showStartupToast autoUpdate))
   ≤ 1)%nat ∧
  ∀ localDevVersion version,
    getLocalDevVersion c directory = Return localDevVersion →
    truthyString localDevVersion = Some version →
    toastCount (effectsOf (timerCallback c directory showStartupToast autoUpdate))
    = if showStartupToast then 1%nat else 0%nat.
Proof.
  rewrite timerCallback_effects. split.
  - destruct (getLocalDevVersion c directory) as [localDevVersion|?]; [|cbn; lia].
    destruct (truthyString localDevVersion) as [version|].
    + destruct showStartupToast; cbn; lia.
    + change (?x :: ?l ++ ?k) with ([x] ++ l ++ k). rewrite !toastCount_app.
      pose proof (runBackgroundUpdateCheck_toastCount c directory autoUpdate).
      destruct (runBackgroundUpdateCheck c directory autoUpdate []).1; cbn; lia.
  - intros localDevVersion version -> ->. by destruct showStartupToast.
Qed.

(** X20: a failure inside the background check never leaves the timer
    callback: the callback fails only when reading the local development
    version fails, and a failure of the check ends in a line of the debug
    log that carries the error. *)
Theorem check_failure_is_contained c directory showStartupToast autoUpdate tr :
  (∀ e, (timerCallback c directory showStartupToast autoUpdate tr).1 = Throw e ↔
        getLocalDevVersion c directory = Throw e) ∧
  (∀ localDevVersion err,
     getLocalDevVersion c directory = Return localDevVersion →
     truthyString localDevVersion = None →
     (runBackgroundUpdateCheck c directory autoUpdate []).1 = Throw err →
     last (effectsOf (timerCallback c directory showStartupToast autoUpdate))
     = Some (DebugLog ("[auto-update-checker] Background update check failed: "
                       +:+ errorText c err))).
Proof.
  split.
  - intros e. rewrite timerCallback_outcome.
    destruct (getLocalDevVersion c directory); split; congruence.
  - intros localDevVersion err Hdev Hfalsy Hfail.
    rewrite timerCallback_effects, Hdev, Hfalsy, Hfail.
    change (?x :: ?l ++ [?y]) with ((x :: l) ++ [y]). apply last_snoc.
Qed.

(** X21: the latest version is fetched only when it is needed: exactly when
    there is no local development version, the plugin entry is found and a
    current version, cached or pinned, is known. *)
Theorem fetch_latest_iff c directory showStartupToast autoUpdate :
  CallGetLatestVersion
    ∈ effectsOf (timerCallback c directory showStartupToast autoUpdate) ↔
  ∃ localDevVersion pluginInfo cachedVersion current,
    getLocalDevVersion c directory = Return localDevVersion ∧
    truthyString localDevVersion = None ∧
    findPluginEntry c directory = Return (Some pluginInfo) ∧
    getCachedVersion c = Return cachedVersion ∧
    truthyString (match cachedVersion with
                  | Some v => Some v
                  | None => pinnedVersion pluginInfo
                  end) = Some current.
Proof.
  rewrite timerCallback_effects.
  destruct (getLocalDevVersion c directory) as [localDevVersion|?].
  - destruct (truthyString localDevVersion) as [version|] eqn:Hdev.
    + split.
      * intros Hin. destruct showStartupToast; invert_member Hin.
      * intros (? & ? & ? & ? & [= <-] & ? & _). congruence.
    + rewrite elem_of_cons, elem_of_app. split.
      * intros [?|[Hin|Hin]]; [done| |by destruct (_.1); invert_member Hin].
        revert Hin. rewrite runBackgroundUpdateCheck_effects.
        destruct (findPluginEntry c directory) as [[pluginInfo|]|?];
          [|by intros Hin; invert_member Hin..].
        destruct (getCachedVersion c) as [cachedVersion|?];
          [|by intros Hin; invert_member Hin].
        destruct (truthyString match _ with Some v => Some v | None => _ end)
          as [current|] eqn:Hcur; [|by intros Hin; invert_member Hin].
        intros _. eauto 10.
      * intros (ldv & pi & cached & cur & _ & _ & Hpi & Hcached & Hcur).
        right; left. rewrite runBackgroundUpdateCheck_effects, Hpi, Hcached, Hcur.
        show_member.
  - split; [intros Hin; invert_member Hin | by intros (? & ? & ? & ? & ? & _)].
Qed.
(** X22: in local development mode the callback does nothing but read the
    local version, write to the debug log and, if wanted, show the toast of
    that mode: the config is neither searched nor rewritten, no version is
    fetched and no package is invalidated, whatever [autoUpdate] says. *)
Theorem local_dev_mode_is_passive c directory showStartupToast autoUpdate
    localDevVersion version :
  getLocalDevVersion c directory = Return localDevVersion →
  truthyString localDevVersion = Some version →
  ∀ e, e ∈ effectsOf (timerCallback c directory showStartupToast autoUpdate) →
    e = CallGetLocalDevVersion directory ∨
    (showStartupToast = true ∧
     e = Toast (mkToastBody (Some ("Antigravity Auth " +:+ version +:+ " (dev)"))
                  "Running in local development mode."
                  VariantWarning (Some 5000))) ∨
    ∃ line, e = DebugLog line.
Proof.
  intros Hdev Htruthy e. rewrite timerCallback_effects, Hdev, Htruthy.
  destruct showStartupToast; intros Hin; invert_member Hin; simplify_eq; eauto.
Qed.

Lemma local_dev_mode_is_passive_witness :
  (getLocalDevVersion devCollaborators "/project" = Return (Some "1.2.3") ∧
   truthyString (Some "1.2.3") = Some "1.2.3") ∧
  ∀ e, e ∈ effectsOf (timerCallback devCollaborators "/project" true true) →
    e = CallGetLocalDevVersion "/project" ∨
    (true = true ∧
     e = Toast (mkToastBody (Some ("Antigravity Auth " +:+ "1.2.3" +:+ " (dev)"))
                  "Running in local development mode."
                  VariantWarning (Some 5000))) ∨
    ∃ line, e = DebugLog line.
Proof.
  assert (getLocalDevVersion devCollaborators "/project" = Return (Some "1.2.3"))
    as Hdev by reflexivity.
  assert (truthyString (Some "1.2.3") = Some "1.2.3") as Htruthy by reflexivity.
  split; [exact (conj Hdev Htruthy)|].
  exact (local_dev_mode_is_passive devCollaborators "/project" true true
           (Some "1.2.3") "1.2.3" Hdev Htruthy).
Defined.
End update_effects.
